(** * RingBuffer: a fixed-capacity circular buffer

    Shallow embedding of [RingBuffer<DataType>] from [RingBuffer_Full.cpp].

    - The four [uint16_t] members are integers in [Z]; every [++] and [--]
      on them is followed by an explicit reduction modulo [2^16].
    - [m_ringbuffer] is a [std::span] over a heap array: a [list] accessed
      by index.  Indexing a span outside its extent is undefined; the
      accessors below return [None] there, and the member functions thread
      that through the option monad.
    - The template parameter is a type with two pieces of structure: the
      value whose object representation is all zero bytes (what [memset]
      leaves behind) and the effect of default-initialisation on a raw
      slot (what [new DataType[n]] and [DataType tmpVal;] do). *)

From stdpp Require Import base option list.
From Stdlib Require Import ZArith Lia.

Local Open Scope Z_scope.

(** ** Element types *)

Class DataType (T : Type) := {
  (** the value left by [memset(&x, 0, sizeof(DataType))] *)
  zero_bytes : T;
  (** default-initialisation of an object placed on storage whose previous
      content read as the argument: a class with a constructor overwrites
      it, a scalar keeps it (no initialisation is performed) *)
  default_init : T → T
}.

(** [int]: [memset] gives [0], default-initialisation does nothing. *)
#[export] Instance int_DataType : DataType Z := {
  zero_bytes := 0;
  default_init := λ raw, raw
}.

(** [struct tmpClass { int one; int two; tmpClass() : two(0), one(0) {} }]
    and [tmpClass2<T> { T three; int four; }] of [testComplexClass]. *)
Record tmpClass := { one : Z; two : Z }.

Record tmpClass2 (T : Type) := { three : T; four : Z }.
Arguments three {T} _.
Arguments four {T} _.

#[export] Instance tmpClass_DataType : DataType tmpClass := {
  zero_bytes := {| one := 0; two := 0 |};
  default_init := λ _, {| one := 0; two := 0 |}
}.

#[export] Instance tmpClass2_DataType `{DataType T} : DataType (tmpClass2 T) := {
  zero_bytes := {| three := zero_bytes; four := 0 |};
  default_init := λ raw, {| three := default_init (three raw); four := four raw |}
}.

(** ** 16-bit unsigned arithmetic *)

Definition uint16_modulus : Z := 65536.

Definition wrap16 (z : Z) : Z := z mod uint16_modulus.

(** ** Span accesses *)

Section span.
Context {T : Type}.

(** [s[ix]] as an rvalue *)
Definition span_load (s : list T) (ix : Z) : option T :=
  if decide (0 ≤ ix) then s !! Z.to_nat ix else None.

(** [s[ix] = v] *)
Definition span_store (s : list T) (ix : Z) (v : T) : option (list T) :=
  if decide (0 ≤ ix < Z.of_nat (length s))
  then Some (<[Z.to_nat ix := v]> s)
  else None.
End span.

(** ** The class *)

Record RingBuffer (T : Type) := {
  m_elements : Z;
  m_ringbuffer : list T;
  m_front : Z;   (* Where next new element will be stored *)
  m_back : Z;    (* Where last element will be deleted from *)
  m_count : Z
}.
Arguments m_elements {T} _.
Arguments m_ringbuffer {T} _.
Arguments m_front {T} _.
Arguments m_back {T} _.
Arguments m_count {T} _.

Section RingBuffer.
Context `{DataType T}.

(** [void AdvanceIndex(uint16_t& ix)]: [if(++ix >= m_elements) ix = 0;]
    The reference becomes an argument and a result. *)
Definition AdvanceIndex (elements ix : Z) : Z :=
  let ix1 := wrap16 (ix + 1) in
  if decide (elements ≤ ix1) then 0 else ix1.

(** [new DataType[n]]: [n] default-initialised objects on memory whose
    previous content is [raw]. *)
Definition new_array (n : Z) (raw : nat → T) : list T :=
  (λ i, default_init (raw i)) <$> seq 0 (Z.to_nat n).

(** [RingBuffer(const uint16_t size)] *)
Definition RingBuffer_ctor (size : Z) (raw : nat → T) : RingBuffer T :=
  {| m_elements := size;
     m_ringbuffer := new_array size raw;
     m_front := 0;
     m_back := 0;
     m_count := 0 |}.

Definition GetFrontIx (rb : RingBuffer T) : Z := m_front rb.
Definition GetBackIx (rb : RingBuffer T) : Z := m_back rb.
Definition GetCount (rb : RingBuffer T) : Z := m_count rb.
Definition GetMaxElements (rb : RingBuffer T) : Z := m_elements rb.
Definition GetBuffer (rb : RingBuffer T) : list T := m_ringbuffer rb.

(** [bool Add(DataType val)] *)
Definition Add (rb : RingBuffer T) (val : T) : option (bool * RingBuffer T) :=
  buf ← span_store (m_ringbuffer rb) (m_front rb) val;
  let front := AdvanceIndex (m_elements rb) (m_front rb) in
  let count := wrap16 (m_count rb + 1) in
  if decide (m_elements rb < count) then
    (* Next insertion position is the back and contains data *)
    Some (false,
          {| m_elements := m_elements rb;
             m_ringbuffer := buf;
             m_front := front;
             m_back := AdvanceIndex (m_elements rb) (m_back rb);
             m_count := wrap16 (count - 1) |})
  else
    Some (true,
          {| m_elements := m_elements rb;
             m_ringbuffer := buf;
             m_front := front;
             m_back := m_back rb;
             m_count := count |}).

(** [bool Remove(DataType& outVal)]: the result carries the flag, the
    content of [outVal] on return, and the buffer.  [outVal] is an object
    of the caller, outside the buffer's storage. *)
Definition Remove (rb : RingBuffer T) (outVal : T)
    : option (bool * T * RingBuffer T) :=
  if decide (0 < m_count rb) then
    v ← span_load (m_ringbuffer rb) (m_back rb);
    buf ← span_store (m_ringbuffer rb) (m_back rb) zero_bytes;
    Some (true, v,
          {| m_elements := m_elements rb;
             m_ringbuffer := buf;
             m_front := m_front rb;
             m_back := AdvanceIndex (m_elements rb) (m_back rb);
             m_count := wrap16 (m_count rb - 1) |})
  else
    Some (false, zero_bytes, rb).

(** [bool Remove(void)]: [DataType tmpVal; return Remove(tmpVal);]
    [raw] is what the stack held where [tmpVal] is placed. *)
Definition Remove_void (rb : RingBuffer T) (raw : T)
    : option (bool * RingBuffer T) :=
  let tmpVal := default_init raw in
  '(ok, _, rb') ← Remove rb tmpVal;
  Some (ok, rb').

(** *** Sequences of calls *)

(** [Add] called on each value in turn; the flags are collected. *)
Fixpoint add_all (rb : RingBuffer T) (vals : list T)
    : option (list bool * RingBuffer T) :=
  match vals with
  | [] => Some ([], rb)
  | v :: vals =>
      '(ok, rb1) ← Add rb v;
      '(oks, rb2) ← add_all rb1 vals;
      Some (ok :: oks, rb2)
  end.

(** [Remove(outVal)] called [n] times on the same output variable; each
    call's flag and the value it left in [outVal] are collected. *)
Fixpoint remove_n (rb : RingBuffer T) (outVal : T) (n : nat)
    : option (list (bool * T) * RingBuffer T) :=
  match n with
  | O => Some ([], rb)
  | S n =>
      '(ok, out, rb1) ← Remove rb outVal;
      '(res, rb2) ← remove_n rb1 out n;
      Some ((ok, out) :: res, rb2)
  end.

(** [Remove()] called [n] times. *)
Fixpoint remove_void_n (rb : RingBuffer T) (raw : T) (n : nat)
    : option (list bool * RingBuffer T) :=
  match n with
  | O => Some ([], rb)
  | S n =>
      '(ok, rb1) ← Remove_void rb raw;
      '(oks, rb2) ← remove_void_n rb1 raw n;
      Some (ok :: oks, rb2)
  end.

(** An arbitrary client: any interleaving of the two mutators. *)
Inductive op :=
| OpAdd (val : T)
| OpRemove (outVal : T).

Definition step (rb : RingBuffer T) (o : op) : option (RingBuffer T) :=
  match o with
  | OpAdd val => snd <$> Add rb val
  | OpRemove outVal => snd <$> Remove rb outVal
  end.

Fixpoint run (rb : RingBuffer T) (ops : list op) : option (RingBuffer T) :=
  match ops with
  | [] => Some rb
  | o :: ops => rb1 ← step rb o; run rb1 ops
  end.

(** *** State predicates *)

(** Members within the ranges of their types and of the storage. *)
Definition bounded (rb : RingBuffer T) : Prop :=
  0 < m_elements rb < uint16_modulus ∧
  length (m_ringbuffer rb) = Z.to_nat (m_elements rb) ∧
  0 ≤ m_front rb < m_elements rb ∧
  0 ≤ m_back rb < m_elements rb ∧
  0 ≤ m_count rb ≤ m_elements rb.

(** The state invariant of the data model. *)
Definition invariant (rb : RingBuffer T) : Prop :=
  0 ≤ m_count rb ≤ m_elements rb ∧
  0 ≤ m_front rb < m_elements rb ∧
  0 ≤ m_back rb < m_elements rb ∧
  (m_count rb = 0 ∨ m_count rb = m_elements rb → m_front rb = m_back rb).

(** The cursors are [m_count] slots apart around the ring. *)
Definition cursors_agree (rb : RingBuffer T) : Prop :=
  m_front rb = (m_back rb + m_count rb) mod m_elements rb.

(** A state from which every client keeps the invariant: the count
    can never reach the wrap-around of its type. *)
Definition sound (rb : RingBuffer T) : Prop :=
  bounded rb ∧ cursors_agree rb ∧ m_elements rb ≤ 65534.

(** [holds rb vs]: the occupied span, read from [m_back] forwards,
    contains exactly [vs], oldest first. *)
Definition holds (rb : RingBuffer T) (vs : list T) : Prop :=
  Z.of_nat (length vs) = m_count rb ∧
  ∀ i : nat, (i < length vs)%nat →
    m_ringbuffer rb !! Z.to_nat ((m_back rb + Z.of_nat i) mod m_elements rb)
    = vs !! i.
End RingBuffer.

(** ** The [int] instance used by the test fixture *)

(** [void PopulateAll()]: [for(int i = 1; i <= m_elements; i++) Add(i);]
    The loop runs at most [m_elements] times, which bounds the recursion. *)
Fixpoint PopulateAll_loop (fuel : nat) (rb : RingBuffer Z) (i : Z)
    : option (RingBuffer Z) :=
  if decide (i ≤ m_elements rb) then
    match fuel with
    | O => None
    | S fuel => '(_, rb1) ← Add rb i; PopulateAll_loop fuel rb1 (i + 1)
    end
  else Some rb.

Definition PopulateAll (rb : RingBuffer Z) : option (RingBuffer Z) :=
  PopulateAll_loop (Z.to_nat (m_elements rb)) rb 1.

(** The fixture: [ringbuf(10)] followed by [SetUp]. *)
Definition fixture (raw : nat → Z) : option (RingBuffer Z) :=
  PopulateAll (RingBuffer_ctor 10 raw).

(** The full buffer of capacity 10 reached by the fixture followed by
    [Add(11); Add(12)] (tests [testWrap2], [testRemove2]). *)
Definition wrapped_twice : RingBuffer Z :=
  {| m_elements := 10; m_ringbuffer := [11; 12; 3; 4; 5; 6; 7; 8; 9; 10];
     m_front := 2; m_back := 2; m_count := 10 |}.

(** A full buffer of the largest capacity a [uint16_t] can express. *)
Definition full_max : RingBuffer Z :=
  {| m_elements := 65535; m_ringbuffer := replicate (Z.to_nat 65535) 0;
     m_front := 0; m_back := 0; m_count := 65535 |}.

(** ** What a client observes *)

Section observations.
Context `{DataType T}.

(** What one call hands back to its caller: the flag, and for
    [Remove(outVal)] the content of [outVal] on return. *)
Inductive result :=
| AddResult (ok : bool)
| RemoveResult (ok : bool) (outVal : T).

Definition step_log (rb : RingBuffer T) (o : op)
    : option (result * RingBuffer T) :=
  match o with
  | OpAdd val => '(ok, rb') ← Add rb val; Some (AddResult ok, rb')
  | OpRemove outVal =>
      '(ok, out, rb') ← Remove rb outVal; Some (RemoveResult ok out, rb')
  end.

Fixpoint run_log (rb : RingBuffer T) (ops : list op)
    : option (list result * RingBuffer T) :=
  match ops with
  | [] => Some ([], rb)
  | o :: ops =>
      '(r, rb1) ← step_log rb o;
      '(rs, rb2) ← run_log rb1 ops;
      Some (r :: rs, rb2)
  end.

(** Reference model, to compare the class with: a first-in-first-out
    queue of at most [capacity] values that gives up its oldest value when
    one more arrives. *)
Definition fifo_step (capacity : Z) (q : list T) (o : op) : result * list T :=
  match o with
  | OpAdd val =>
      if decide (Z.of_nat (length q) < capacity)
      then (AddResult true, q ++ [val])
      else (AddResult false, drop 1 q ++ [val])
  | OpRemove _ =>
      match q with
      | [] => (RemoveResult false zero_bytes, [])
      | v :: q => (RemoveResult true v, q)
      end
  end.

Fixpoint fifo_run (capacity : Z) (q : list T) (ops : list op)
    : list result * list T :=
  match ops with
  | [] => ([], q)
  | o :: ops =>
      let '(r, q1) := fifo_step capacity q o in
      let '(rs, q2) := fifo_run capacity q1 ops in
      (r :: rs, q2)
  end.

(** By how much a call with this result changed the number of values. *)
Definition count_change (r : result) : Z :=
  match r with
  | AddResult true => 1
  | AddResult false => 0
  | RemoveResult true _ => -1
  | RemoveResult false _ => 0
  end.

(** Slot [j] of the storage lies outside the occupied span. *)
Definition vacant (rb : RingBuffer T) (j : nat) : Prop :=
  (j < length (m_ringbuffer rb))%nat ∧
  ∀ i : nat, Z.of_nat i < m_count rb →
    Z.to_nat ((m_back rb + Z.of_nat i) mod m_elements rb) ≠ j.

(** Every slot outside the occupied span reads as the zero value. *)
Definition clean (rb : RingBuffer T) : Prop :=
  ∀ j : nat, vacant rb j → m_ringbuffer rb !! j = Some zero_bytes.
End observations.

(** ** Arithmetic of the cursors *)

Lemma wrap16_small z : 0 ≤ z < uint16_modulus → wrap16 z = z.
Proof. intros Hz. unfold wrap16. by apply Z.mod_small. Qed.

Lemma wrap16_modulus : wrap16 uint16_modulus = 0.
Proof. reflexivity. Qed.

(** A sum of two residues needs at most one subtraction to be reduced. *)
Lemma mod_once c x :
  0 < c → 0 ≤ x < 2 * c → x mod c = if decide (x < c) then x else x - c.
Proof.
  intros Hc Hx. case_decide.
  - apply Z.mod_small. lia.
  - symmetry. apply (Z.mod_unique_pos _ _ 1). all: lia.
Qed.

Ltac reduce_mod :=
  repeat match goal with
  | |- context [?x mod ?c] => rewrite (mod_once c x) by lia; case_decide
  | H : context [?x mod ?c] |- _ =>
      rewrite (mod_once c x) in H by lia; case_decide
  end.

Section facts.
Context `{DataType T}.
Implicit Types rb : RingBuffer T.
Implicit Types v val outVal : T.
Implicit Types vs : list T.

Lemma AdvanceIndex_mod elements ix :
  0 < elements < uint16_modulus → 0 ≤ ix < elements →
  AdvanceIndex elements ix = (ix + 1) mod elements.
Proof.
  intros He Hix. unfold AdvanceIndex. unfold uint16_modulus in *.
  rewrite wrap16_small by (unfold uint16_modulus; lia).
  reduce_mod; case_decide; lia.
Qed.

Lemma AdvanceIndex_range elements ix :
  0 < elements → 0 ≤ ix → 0 ≤ AdvanceIndex elements ix < elements.
Proof.
  intros He Hix. unfold AdvanceIndex, wrap16, uint16_modulus.
  case_decide; [lia|].
  pose proof (Z.mod_pos_bound (ix + 1) 65536). lia.
Qed.

(** *** [Add], branch by branch *)

Lemma Add_not_full rb val :
  bounded rb → m_count rb < m_elements rb →
  Add rb val =
    Some (true,
          {| m_elements := m_elements rb;
             m_ringbuffer := <[Z.to_nat (m_front rb) := val]> (m_ringbuffer rb);
             m_front := (m_front rb + 1) mod m_elements rb;
             m_back := m_back rb;
             m_count := m_count rb + 1 |}).
Proof.
  intros (He & Hlen & Hf & Hb & Hc) Hlt. unfold Add, span_store.
  unfold uint16_modulus in *.
  rewrite decide_True by lia. simpl.
  rewrite AdvanceIndex_mod by (unfold uint16_modulus; lia).
  rewrite wrap16_small by (unfold uint16_modulus; lia).
  by rewrite decide_False by lia.
Qed.

Lemma Add_full rb val :
  bounded rb → m_count rb = m_elements rb → m_elements rb ≤ 65534 →
  Add rb val =
    Some (false,
          {| m_elements := m_elements rb;
             m_ringbuffer := <[Z.to_nat (m_front rb) := val]> (m_ringbuffer rb);
             m_front := (m_front rb + 1) mod m_elements rb;
             m_back := (m_back rb + 1) mod m_elements rb;
             m_count := m_elements rb |}).
Proof.
  intros (He & Hlen & Hf & Hb & Hc) Hfull Hmax. unfold Add, span_store.
  unfold uint16_modulus in *.
  rewrite decide_True by lia. simpl.
  rewrite !AdvanceIndex_mod by (unfold uint16_modulus; lia).
  rewrite (wrap16_small (m_count rb + 1)) by (unfold uint16_modulus; lia).
  rewrite decide_True by lia.
  rewrite wrap16_small by (unfold uint16_modulus; lia).
  do 3 f_equal. lia.
Qed.

(** At the largest capacity the increment of a full count wraps to zero,
    and the comparison with [m_elements] does not see an overflow. *)
Lemma Add_full_max rb val :
  bounded rb → m_count rb = m_elements rb → m_elements rb = 65535 →
  Add rb val =
    Some (true,
          {| m_elements := m_elements rb;
             m_ringbuffer := <[Z.to_nat (m_front rb) := val]> (m_ringbuffer rb);
             m_front := (m_front rb + 1) mod m_elements rb;
             m_back := m_back rb;
             m_count := 0 |}).
Proof.
  intros (He & Hlen & Hf & Hb & Hc) Hfull Hmax. unfold Add, span_store.
  unfold uint16_modulus in *.
  rewrite decide_True by lia. simpl.
  rewrite !AdvanceIndex_mod by (unfold uint16_modulus; lia).
  rewrite Hfull, Hmax. change (wrap16 (65535 + 1)) with 0.
  by rewrite decide_False by lia.
Qed.

(** *** [Remove], branch by branch *)

Lemma Remove_nonempty rb outVal :
  bounded rb → 0 < m_count rb →
  ∃ v, m_ringbuffer rb !! Z.to_nat (m_back rb) = Some v ∧
    Remove rb outVal =
      Some (true, v,
            {| m_elements := m_elements rb;
               m_ringbuffer :=
                 <[Z.to_nat (m_back rb) := zero_bytes]> (m_ringbuffer rb);
               m_front := m_front rb;
               m_back := (m_back rb + 1) mod m_elements rb;
               m_count := m_count rb - 1 |}).
Proof.
  intros (He & Hlen & Hf & Hb & Hc) Hpos.
  destruct (lookup_lt_is_Some_2 (m_ringbuffer rb) (Z.to_nat (m_back rb)))
    as [v Hv]; [lia|].
  exists v. split; [done|].
  unfold Remove, span_load, span_store. unfold uint16_modulus in *.
  rewrite decide_True by lia. rewrite decide_True by lia.
  rewrite Hv. simpl. rewrite decide_True by lia. simpl.
  rewrite AdvanceIndex_mod by (unfold uint16_modulus; lia).
  by rewrite wrap16_small by (unfold uint16_modulus; lia).
Qed.

Lemma Remove_empty rb outVal :
  m_count rb = 0 → Remove rb outVal = Some (false, zero_bytes, rb).
Proof. intros Hc. unfold Remove. by rewrite decide_False by lia. Qed.

Lemma Remove_out_irrelevant rb outVal outVal' :
  Remove rb outVal = Remove rb outVal'.
Proof. reflexivity. Qed.
End facts.

(** ** Preservation of the state predicates *)

Section preservation.
Context `{DataType T}.
Implicit Types rb : RingBuffer T.
Implicit Types v val outVal : T.
Implicit Types vs : list T.

Lemma length_new_array n (raw : nat → T) :
  length (new_array n raw) = Z.to_nat n.
Proof. unfold new_array. by rewrite length_fmap, length_seq. Qed.

Lemma lookup_new_array n (raw : nat → T) (i : nat) :
  (i < Z.to_nat n)%nat → new_array n raw !! i = Some (default_init (raw i)).
Proof.
  intros Hi. unfold new_array.
  rewrite list_lookup_fmap, lookup_seq_lt by done. done.
Qed.

Lemma bounded_ctor size (raw : nat → T) :
  0 < size < uint16_modulus → bounded (RingBuffer_ctor size raw).
Proof.
  intros Hs. unfold bounded; simpl. rewrite length_new_array. lia.
Qed.

Lemma cursors_agree_ctor size (raw : nat → T) :
  0 < size → cursors_agree (RingBuffer_ctor size raw).
Proof. intros Hs. unfold cursors_agree; simpl. by rewrite Z.mod_0_l by lia. Qed.

(** The three cases of [Add] on a bounded state. *)
Lemma Add_cases rb :
  bounded rb →
  m_count rb < m_elements rb
  ∨ (m_count rb = m_elements rb ∧ m_elements rb ≤ 65534)
  ∨ (m_count rb = m_elements rb ∧ m_elements rb = 65535).
Proof. unfold bounded, uint16_modulus. lia. Qed.

Lemma bounded_Add rb val ok rb' :
  bounded rb → Add rb val = Some (ok, rb') → bounded rb'.
Proof.
  intros Hb. pose proof Hb as (He & Hlen & Hf & Hbk & Hc).
  destruct (Add_cases rb Hb) as [Hlt | [[Hfull Hmax] | [Hfull Hmax]]].
  - rewrite Add_not_full by done. intros [= <- <-].
    unfold bounded; simpl. rewrite length_insert.
    pose proof (Z.mod_pos_bound (m_front rb + 1) (m_elements rb)). lia.
  - rewrite Add_full by done. intros [= <- <-].
    unfold bounded; simpl. rewrite length_insert.
    pose proof (Z.mod_pos_bound (m_front rb + 1) (m_elements rb)).
    pose proof (Z.mod_pos_bound (m_back rb + 1) (m_elements rb)). lia.
  - rewrite Add_full_max by done. intros [= <- <-].
    unfold bounded; simpl. rewrite length_insert.
    pose proof (Z.mod_pos_bound (m_front rb + 1) (m_elements rb)). lia.
Qed.

Lemma Add_total rb val : bounded rb → is_Some (Add rb val).
Proof.
  intros Hb.
  destruct (Add_cases rb Hb) as [Hlt | [[Hfull Hmax] | [Hfull Hmax]]].
  - rewrite Add_not_full by done. eauto.
  - rewrite Add_full by done. eauto.
  - rewrite Add_full_max by done. eauto.
Qed.

Lemma bounded_Remove rb outVal ok out rb' :
  bounded rb → Remove rb outVal = Some (ok, out, rb') → bounded rb'.
Proof.
  intros Hb. pose proof Hb as (He & Hlen & Hf & Hbk & Hc).
  destruct (decide (0 < m_count rb)) as [Hpos | Hzero].
  - destruct (Remove_nonempty rb outVal Hb Hpos) as (v & _ & ->).
    intros [= <- <- <-]. unfold bounded; simpl. rewrite length_insert.
    pose proof (Z.mod_pos_bound (m_back rb + 1) (m_elements rb)). lia.
  - rewrite Remove_empty by lia. by intros [= <- <- <-].
Qed.

Lemma Remove_total rb outVal : bounded rb → is_Some (Remove rb outVal).
Proof.
  intros Hb. destruct (decide (0 < m_count rb)) as [Hpos | Hzero].
  - destruct (Remove_nonempty rb outVal Hb Hpos) as (v & _ & ->). eauto.
  - rewrite Remove_empty by (destruct Hb as (_ & _ & _ & _ & ?); lia). eauto.
Qed.

Lemma bounded_step rb o rb' : bounded rb → step rb o = Some rb' → bounded rb'.
Proof.
  intros Hb. destruct o as [val | outVal]; simpl.
  - destruct (Add rb val) as [[ok rb1]|] eqn:E; [|done].
    intros [= <-]. eauto using bounded_Add.
  - destruct (Remove rb outVal) as [[[ok out] rb1]|] eqn:E; [|done].
    intros [= <-]. eauto using bounded_Remove.
Qed.

Lemma step_total rb o : bounded rb → is_Some (step rb o).
Proof.
  intros Hb. destruct o as [val | outVal]; simpl.
  - destruct (Add_total rb val Hb) as [x ->]. eauto.
  - destruct (Remove_total rb outVal Hb) as [x ->]. eauto.
Qed.

(** Every state a client can reach from a bounded one is bounded, and no
    call on the way indexes outside the storage. *)
Lemma bounded_run ops : ∀ rb,
  bounded rb → ∃ rb', run rb ops = Some rb' ∧ bounded rb'.
Proof.
  induction ops as [|o ops IH]; intros rb Hb; simpl.
  - eauto.
  - destruct (step_total rb o Hb) as [rb1 E]. rewrite E. simpl.
    apply IH. eauto using bounded_step.
Qed.

(** The cursors stay [m_count] apart as long as the count cannot wrap. *)
Lemma cursors_agree_Add rb val ok rb' :
  bounded rb → m_elements rb ≤ 65534 → cursors_agree rb →
  Add rb val = Some (ok, rb') → cursors_agree rb'.
Proof.
  intros Hb Hmax Hag. pose proof Hb as (He & Hlen & Hf & Hbk & Hc).
  unfold cursors_agree in *.
  destruct (decide (m_count rb < m_elements rb)) as [Hlt | Hfull].
  - rewrite Add_not_full by done. intros [= <- <-]. simpl.
    rewrite Hag. reduce_mod; lia.
  - rewrite Add_full by (done || lia). intros [= <- <-]. simpl.
    rewrite Hag. reduce_mod; lia.
Qed.

Lemma cursors_agree_Remove rb outVal ok out rb' :
  bounded rb → cursors_agree rb →
  Remove rb outVal = Some (ok, out, rb') → cursors_agree rb'.
Proof.
  intros Hb Hag. pose proof Hb as (He & Hlen & Hf & Hbk & Hc).
  unfold cursors_agree in *.
  destruct (decide (0 < m_count rb)) as [Hpos | Hzero].
  - destruct (Remove_nonempty rb outVal Hb Hpos) as (v & _ & ->).
    intros [= <- <- <-]. simpl. rewrite Hag. reduce_mod; lia.
  - rewrite Remove_empty by lia. by intros [= <- <- <-].
Qed.

Lemma elements_Add rb val ok rb' :
  Add rb val = Some (ok, rb') → m_elements rb' = m_elements rb.
Proof.
  unfold Add. destruct (span_store _ _ _); simpl; [|done].
  case_decide; by intros [= <- <-].
Qed.

Lemma elements_Remove rb outVal ok out rb' :
  Remove rb outVal = Some (ok, out, rb') → m_elements rb' = m_elements rb.
Proof.
  unfold Remove. case_decide; [|by intros [= <- <- <-]].
  destruct (span_load _ _); simpl; [|done].
  destruct (span_store _ _ _); simpl; [|done].
  by intros [= <- <- <-].
Qed.

Lemma invariant_of_cursors rb : bounded rb → cursors_agree rb → invariant rb.
Proof.
  intros (He & Hlen & Hf & Hbk & Hc) Hag. unfold invariant, cursors_agree in *.
  repeat split; try lia.
  intros [Hz | Hfull]; rewrite Hag; reduce_mod; lia.
Qed.

Lemma sound_step rb o :
  sound rb → ∃ rb', step rb o = Some rb' ∧ sound rb'.
Proof.
  intros (Hb & Hag & Hmax). destruct o as [val | outVal]; simpl.
  - destruct (Add_total rb val Hb) as [[ok rb'] E]. rewrite E. simpl.
    exists rb'. split; [done|]. split; [|split].
    + eauto using bounded_Add.
    + eauto using cursors_agree_Add.
    + by rewrite (elements_Add _ _ _ _ E).
  - destruct (Remove_total rb outVal Hb) as [[[ok out] rb'] E].
    rewrite E. simpl.
    exists rb'. split; [done|]. split; [|split].
    + eauto using bounded_Remove.
    + eauto using cursors_agree_Remove.
    + by rewrite (elements_Remove _ _ _ _ _ E).
Qed.

Lemma sound_run ops : ∀ rb,
  sound rb → ∃ rb', run rb ops = Some rb' ∧ sound rb'.
Proof.
  induction ops as [|o ops IH]; intros rb Hs; simpl.
  - eauto.
  - destruct (sound_step rb o Hs) as (rb1 & -> & Hs1). simpl. by apply IH.
Qed.

Lemma run_app ops1 ops2 : ∀ rb,
  run rb (ops1 ++ ops2) = rb1 ← run rb ops1; run rb1 ops2.
Proof.
  induction ops1 as [|o ops1 IH]; intros rb; simpl; [done|].
  destruct (step rb o) as [rb1|]; simpl; [apply IH | done].
Qed.
End preservation.

(** ** The occupied span as a queue *)

Section queue.
Context `{DataType T}.
Implicit Types rb : RingBuffer T.
Implicit Types v val outVal : T.
Implicit Types vs : list T.

Lemma holds_nil rb : m_count rb = 0 → holds rb [].
Proof. intros Hc. split; simpl; [lia|]. intros i Hi. lia. Qed.

(** Appending at [m_front] extends the queue at its young end. *)
Lemma holds_Add_not_full rb val vs :
  bounded rb → cursors_agree rb → holds rb vs →
  m_count rb < m_elements rb →
  ∃ rb', Add rb val = Some (true, rb') ∧ holds rb' (vs ++ [val]).
Proof.
  intros Hb Hag [Hlen Hvs] Hlt. pose proof Hb as (He & Hl & Hf & Hbk & Hc).
  rewrite Add_not_full by done. eexists; split; [done|].
  unfold cursors_agree in Hag. split; simpl.
  - rewrite length_app. simpl. lia.
  - intros i Hi. rewrite length_app in Hi. simpl in Hi.
    destruct (decide (i < length vs)%nat) as [Hin | Hlast].
    + rewrite lookup_app_l by done. rewrite <- Hvs by done.
      apply list_lookup_insert_ne. rewrite Hag. reduce_mod; lia.
    + assert (i = length vs) as -> by lia.
      rewrite lookup_app_r by lia. rewrite Nat.sub_diag. simpl.
      rewrite Hlen, <- Hag. apply list_lookup_insert_eq. lia.
Qed.

(** On a full buffer the write lands on the oldest element, which is
    dropped, and the new value becomes the youngest. *)
Lemma holds_Add_full rb val vs :
  bounded rb → cursors_agree rb → holds rb vs →
  m_count rb = m_elements rb → m_elements rb ≤ 65534 →
  ∃ rb', Add rb val = Some (false, rb') ∧ holds rb' (drop 1 vs ++ [val]).
Proof.
  intros Hb Hag [Hlen Hvs] Hfull Hmax.
  pose proof Hb as (He & Hl & Hf & Hbk & Hc).
  rewrite Add_full by done. eexists; split; [done|].
  unfold cursors_agree in Hag.
  assert (m_front rb = m_back rb) as Hfb by (rewrite Hag; reduce_mod; lia).
  split; simpl.
  - rewrite length_app, length_drop. simpl. lia.
  - intros i Hi. rewrite length_app, length_drop in Hi. simpl in Hi.
    destruct (decide (i < length vs - 1)%nat) as [Hin | Hlast].
    + rewrite lookup_app_l by (rewrite length_drop; lia).
      rewrite lookup_drop. rewrite <- Hvs by lia.
      rewrite list_lookup_insert_ne by (rewrite Hfb; reduce_mod; lia).
      f_equal. f_equal. reduce_mod; lia.
    + assert (i = (length vs - 1)%nat) as -> by lia.
      rewrite lookup_app_r by (rewrite length_drop; lia).
      rewrite length_drop, Nat.sub_diag. simpl.
      replace (Z.to_nat _) with (Z.to_nat (m_front rb))
        by (rewrite Hfb; reduce_mod; lia).
      apply list_lookup_insert_eq. lia.
Qed.

(** [Remove] takes the oldest element and leaves the rest in order. *)
Lemma holds_Remove rb outVal v vs :
  bounded rb → holds rb (v :: vs) →
  ∃ rb', Remove rb outVal = Some (true, v, rb') ∧ holds rb' vs.
Proof.
  intros Hb [Hlen Hvs]. pose proof Hb as (He & Hl & Hf & Hbk & Hc).
  simpl in Hlen.
  destruct (Remove_nonempty rb outVal Hb) as (v' & Hv' & ->); [lia|].
  assert (v' = v) as ->.
  { specialize (Hvs 0%nat). simpl in Hvs.
    rewrite Z.add_0_r, Z.mod_small in Hvs by lia.
    rewrite Hv' in Hvs. injection Hvs; [done | lia]. }
  eexists; split; [done|]. split; simpl.
  - lia.
  - intros i Hi. specialize (Hvs (S i)). simpl in Hvs.
    rewrite <- Hvs by lia.
    rewrite list_lookup_insert_ne by (reduce_mod; lia).
    f_equal. f_equal. reduce_mod; lia.
Qed.

(** Filling: [n] values added to a state that has room for them. *)
Lemma add_all_room vals : ∀ rb vs,
  bounded rb → cursors_agree rb → holds rb vs →
  m_count rb + Z.of_nat (length vals) ≤ m_elements rb →
  ∃ rb', add_all rb vals = Some (replicate (length vals) true, rb') ∧
    bounded rb' ∧ cursors_agree rb' ∧ holds rb' (vs ++ vals) ∧
    m_elements rb' = m_elements rb ∧ m_back rb' = m_back rb.
Proof.
  induction vals as [|v vals IH]; intros rb vs Hb Hag Hh Hroom; simpl in *.
  - exists rb. by rewrite app_nil_r.
  - destruct (holds_Add_not_full rb v vs) as (rb1 & E & Hh1); [done..|lia|].
    assert (bounded rb1) as Hb1 by eauto using bounded_Add.
    assert (m_elements rb1 = m_elements rb ∧ m_back rb1 = m_back rb
            ∧ m_count rb1 = m_count rb + 1) as (He1 & Hbk1 & Hc1).
    { rewrite Add_not_full in E by (done || lia).
      by injection E as <-. }
    assert (cursors_agree rb1) as Hag1.
    { unfold cursors_agree in *. rewrite He1, Hbk1, Hc1.
      rewrite Add_not_full in E by (done || lia). injection E as <-. simpl.
      destruct Hb as (? & ? & ? & ? & ?). rewrite Hag. reduce_mod; lia. }
    destruct (IH rb1 (vs ++ [v])) as (rb2 & E2 & ? & ? & Hh2 & ? & ?);
      [done.. | lia |].
    rewrite E. simpl. rewrite E2. simpl.
    exists rb2. rewrite <- app_assoc in Hh2. simpl in Hh2.
    split_and!; try done; congruence.
Qed.

(** Draining: everything the buffer holds comes out oldest first. *)
Lemma remove_n_holds vs : ∀ rb outVal,
  bounded rb → holds rb vs →
  ∃ rb', remove_n rb outVal (length vs) = Some ((λ v, (true, v)) <$> vs, rb') ∧
    bounded rb' ∧ m_count rb' = 0 ∧ m_front rb' = m_front rb ∧
    m_elements rb' = m_elements rb.
Proof.
  induction vs as [|v vs IH]; intros rb outVal Hb Hh; simpl.
  - exists rb. destruct Hh as [Hlen _]. simpl in Hlen. split_and!; (done || lia).
  - destruct (holds_Remove rb outVal v vs Hb Hh) as (rb1 & E & Hh1).
    assert (bounded rb1) as Hb1 by eauto using bounded_Remove.
    destruct (IH rb1 v Hb1 Hh1) as (rb2 & E2 & ? & ? & Hf2 & He2).
    rewrite E. simpl. rewrite E2. simpl. exists rb2.
    destruct (Remove_nonempty rb outVal Hb) as (v' & _ & E').
    { destruct Hh as [Hlen _]. simpl in Hlen. lia. }
    rewrite E' in E. injection E as _ <-. simpl in *.
    split_and!; done.
Qed.
End queue.

(** ** Filling a fresh buffer *)

Section fill.
Context `{DataType T}.
Implicit Types rb : RingBuffer T.

Lemma empty_cursors_agree rb :
  bounded rb → m_count rb = 0 → m_front rb = m_back rb → cursors_agree rb.
Proof.
  intros (He & Hl & Hf & Hbk & Hc) Hz Hfb. unfold cursors_agree.
  rewrite Hz, Hfb. reduce_mod; lia.
Qed.

(** Exactly [size] values fill a fresh buffer of that capacity: every
    [Add] reports [true], the buffer holds the values in order, and both
    cursors are back at slot 0. *)
Lemma fill_from_ctor size (raw : nat → T) (vals : list T) :
  0 < size < uint16_modulus → length vals = Z.to_nat size →
  ∃ full,
    add_all (RingBuffer_ctor size raw) vals
      = Some (replicate (length vals) true, full) ∧
    bounded full ∧ cursors_agree full ∧ holds full vals ∧
    m_elements full = size ∧ m_count full = size ∧
    m_front full = 0 ∧ m_back full = 0.
Proof.
  intros Hs Hlen.
  destruct (add_all_room vals (RingBuffer_ctor size raw) [])
    as (full & E & Hb & Hag & Hh & He & Hbk).
  - by apply bounded_ctor.
  - apply cursors_agree_ctor. lia.
  - by apply holds_nil.
  - simpl. lia.
  - simpl in *. exists full. destruct Hh as [Hcount Hslots].
    split_and!; try done; try lia.
    unfold cursors_agree in Hag. rewrite Hag, He, Hbk, <- Hcount.
    replace (0 + Z.of_nat (length vals)) with size by lia.
    apply Z_mod_same_full.
Qed.

Lemma run_adds (vals : list T) : ∀ rb oks rb',
  add_all rb vals = Some (oks, rb') → run rb (OpAdd <$> vals) = Some rb'.
Proof.
  induction vals as [|v vals IH]; intros rb oks rb'; simpl.
  - by intros [= _ <-].
  - destruct (Add rb v) as [[ok rb1]|]; simpl; [|done].
    destruct (add_all rb1 vals) as [[oks1 rb2]|] eqn:E; simpl; [|done].
    intros [= _ <-]. eauto.
Qed.

(** The invariant is kept by every client of a buffer whose capacity is
    below the largest value of the count's type. *)
Lemma invariant_maintained_below_max_capacity size (raw : nat → T) ops :
  0 < size ≤ 65534 →
  ∃ rb', run (RingBuffer_ctor size raw) ops = Some rb' ∧ invariant rb'.
Proof.
  intros Hs.
  destruct (sound_run ops (RingBuffer_ctor size raw)) as (rb' & E & Hs').
  - split_and!; simpl; [|apply cursors_agree_ctor|]; try lia.
    apply bounded_ctor. unfold uint16_modulus. lia.
  - exists rb'. split; [done|].
    destruct Hs' as (? & ? & _). by apply invariant_of_cursors.
Qed.
End fill.

(** ** The scenarios of the test fixture *)

Section tests.
Variable raw : nat → Z.

Example testPopulationTen :
  fixture raw =
    Some {| m_elements := 10; m_ringbuffer := [1; 2; 3; 4; 5; 6; 7; 8; 9; 10];
            m_front := 0; m_back := 0; m_count := 10 |}.
Proof. reflexivity. Qed.

Example testWrap1 :
  (rb ← fixture raw; Add rb 11) =
    Some (false,
          {| m_elements := 10; m_ringbuffer := [11; 2; 3; 4; 5; 6; 7; 8; 9; 10];
             m_front := 1; m_back := 1; m_count := 10 |}).
Proof. reflexivity. Qed.

Example testFillRemoved :
  (rb ← fixture raw; '(_, rb) ← add_all rb [11; 12];
   '(_, rb) ← remove_void_n rb 0 2; Add rb 13) =
    Some (true,
          {| m_elements := 10; m_ringbuffer := [11; 12; 13; 0; 5; 6; 7; 8; 9; 10];
             m_front := 3; m_back := 4; m_count := 9 |}).
Proof. reflexivity. Qed.

Example B4RemoveWrap :
  (rb ← fixture raw; snd <$> remove_void_n rb 0 9) =
    Some {| m_elements := 10; m_ringbuffer := [0; 0; 0; 0; 0; 0; 0; 0; 0; 10];
            m_front := 0; m_back := 9; m_count := 1 |}.
Proof. reflexivity. Qed.

Example RemovePastFront :
  (rb ← fixture raw; '(_, rb) ← Add rb 11; snd <$> remove_void_n rb 0 11) =
    Some {| m_elements := 10; m_ringbuffer := [0; 0; 0; 0; 0; 0; 0; 0; 0; 0];
            m_front := 1; m_back := 1; m_count := 0 |}.
Proof. reflexivity. Qed.

Example InsertLargeAmount :
  (rb ← fixture raw; snd <$> add_all rb (seqZ 0 999)) =
    Some {| m_elements := 10;
            m_ringbuffer := [990; 991; 992; 993; 994; 995; 996; 997; 998; 989];
            m_front := 9; m_back := 9; m_count := 10 |}.
Proof. vm_compute. reflexivity. Qed.
End tests.

(** ** Properties of the specification *)

(** C1, evaluated where the code departs from it.  A buffer of capacity
    65535 is filled by 65535 calls of [Add], each reporting [true]; it is
    then full.  One more [Add] writes over the oldest element, yet reports
    [true], leaves [m_back] where it was and sets [m_count] to 0 instead
    of reporting [false], advancing [m_back] and keeping [m_count] at the
    capacity. *)
Theorem Add_on_full_max_capacity `{DataType T} (raw : nat → T) (v0 v : T) :
  ∃ full rb',
    add_all (RingBuffer_ctor 65535 raw) (replicate (Z.to_nat 65535) v0)
      = Some (replicate (Z.to_nat 65535) true, full) ∧
    m_count full = m_elements full ∧
    Add full v = Some (true, rb') ∧
    m_ringbuffer rb' = <[Z.to_nat (m_front full) := v]> (m_ringbuffer full) ∧
    m_front rb' = 1 ∧
    m_back rb' = m_back full ∧
    m_back rb' ≠ (m_back full + 1) mod m_elements full ∧
    m_count rb' = 0.
Proof.
  destruct (fill_from_ctor 65535 raw (replicate (Z.to_nat 65535) v0))
    as (full & E & Hb & Hag & Hh & He & Hc & Hf & Hbk).
  { unfold uint16_modulus. lia. }
  { apply length_replicate. }
  rewrite length_replicate in E.
  exists full. eexists. split; [exact E|]. clear E.
  split; [congruence|].
  split; [apply Add_full_max; congruence|].
  cbn [m_ringbuffer m_front m_back m_count]. rewrite Hf, Hbk, He.
  change ((0 + 1) mod 65535) with 1.
  split_and!; reflexivity || lia.
Qed.

(** C2: on a buffer that holds something, [Remove(outVal)] succeeds,
    hands out the value of slot [m_back], overwrites that slot with the
    zero value, advances [m_back] by one modulo the capacity and takes one
    off [m_count]; and from the full buffer [11,12,3,...,10] with both
    cursors at 2, two removals leave slots 2 and 3 zeroed, [m_back = 4]
    and [m_count = 8]. *)
Theorem Remove_takes_oldest `{DataType T} (rb : RingBuffer T) (outVal : T)
    (Hb : bounded rb) (Hpos : 0 < m_count rb) :
  (∃ v, span_load (m_ringbuffer rb) (m_back rb) = Some v ∧
     Remove rb outVal =
       Some (true, v,
             {| m_elements := m_elements rb;
                m_ringbuffer :=
                  <[Z.to_nat (m_back rb) := zero_bytes]> (m_ringbuffer rb);
                m_front := m_front rb;
                m_back := (m_back rb + 1) mod m_elements rb;
                m_count := m_count rb - 1 |})) ∧
  (∀ raw, (rb ← fixture raw; add_all rb [11; 12])
          = Some ([false; false], wrapped_twice)) ∧
  (∀ out : Z, remove_n wrapped_twice out 2 =
     Some ([(true, 3); (true, 4)],
           {| m_elements := 10;
              m_ringbuffer := [11; 12; 0; 0; 5; 6; 7; 8; 9; 10];
              m_front := 2; m_back := 4; m_count := 8 |})).
Proof.
  split; [|split; reflexivity].
  destruct (Remove_nonempty rb outVal Hb Hpos) as (v & Hv & E).
  exists v. split; [|done].
  unfold span_load. destruct Hb as (_ & _ & _ & ? & _).
  by rewrite decide_True by lia.
Qed.

Lemma Remove_takes_oldest_witness :
  bounded wrapped_twice ∧ 0 < m_count wrapped_twice ∧
  Remove wrapped_twice 0 =
    Some (true, 3,
          {| m_elements := 10;
             m_ringbuffer := [11; 12; 0; 4; 5; 6; 7; 8; 9; 10];
             m_front := 2; m_back := 3; m_count := 9 |}).
Proof.
  assert (bounded wrapped_twice) as Hb.
  { unfold bounded, uint16_modulus; simpl. lia. }
  assert (0 < m_count wrapped_twice) as Hpos by (simpl; lia).
  split; [exact Hb|]. split; [exact Hpos|].
  destruct (Remove_takes_oldest wrapped_twice 0 Hb Hpos)
    as [(v & Hv & E) _].
  vm_compute in Hv. injection Hv as <-. rewrite E. reflexivity.
Defined.

(** First in, first out, where the code keeps it: from an empty buffer
    whose two cursors are at the same slot (every empty state of a buffer
    of capacity at most 65534, and the freshly constructed buffer of any
    capacity), [N] values added ([N] at most the capacity) and then [N]
    removals give the values back in the order of insertion; every [Add]
    and every [Remove] reports [true], and the buffer is empty again. *)
Lemma fifo_order `{DataType T} (rb : RingBuffer T) (vals : list T) (outVal : T)
    (Hb : bounded rb) (Hempty : m_count rb = 0) (Hfb : m_front rb = m_back rb)
    (Hn : Z.of_nat (length vals) ≤ m_elements rb) :
  ∃ rb1 rb2,
    add_all rb vals = Some (replicate (length vals) true, rb1) ∧
    remove_n rb1 outVal (length vals) = Some ((λ v, (true, v)) <$> vals, rb2) ∧
    m_count rb2 = 0.
Proof.
  destruct (add_all_room vals rb [])
    as (rb1 & E1 & Hb1 & _ & Hh1 & _ & _).
  - done.
  - by apply empty_cursors_agree.
  - by apply holds_nil.
  - lia.
  - simpl in Hh1.
    destruct (remove_n_holds vals rb1 outVal Hb1 Hh1)
      as (rb2 & E2 & _ & Hc2 & _ & _).
    by exists rb1, rb2.
Qed.

Lemma fifo_order_witness :
  let rb := RingBuffer_ctor 3 (λ _, 0) in
  bounded rb ∧
  ∃ rb1 rb2,
    add_all rb [5; 6; 7] = Some ([true; true; true], rb1) ∧
    remove_n rb1 0 3 = Some ([(true, 5); (true, 6); (true, 7)], rb2) ∧
    m_count rb2 = 0.
Proof.
  intros rb.
  assert (bounded rb) as Hb.
  { unfold bounded, uint16_modulus; simpl. lia. }
  split; [exact Hb|].
  apply (fifo_order rb [5; 6; 7] 0 Hb); simpl; [reflexivity | reflexivity | lia].
Defined.

(** C5: on an empty buffer [Remove] changes nothing (cursors, count and
    every slot stay as they are), leaves the zero value in the output
    variable when there is one, and reports [false]; any number of
    repetitions does the same. *)
Theorem Remove_on_empty `{DataType T} (rb : RingBuffer T) (outVal raw : T)
    (n : nat) (Hempty : m_count rb = 0) :
  Remove rb outVal = Some (false, zero_bytes, rb) ∧
  Remove_void rb raw = Some (false, rb) ∧
  remove_n rb outVal n = Some (replicate n (false, zero_bytes), rb) ∧
  remove_void_n rb raw n = Some (replicate n false, rb).
Proof.
  assert (∀ out, Remove rb out = Some (false, zero_bytes, rb)) as HR.
  { intros out. by apply Remove_empty. }
  assert (Remove_void rb raw = Some (false, rb)) as HV.
  { unfold Remove_void. by rewrite HR. }
  split_and!; [done | done | |].
  - revert outVal. induction n as [|n IH]; intros outVal; simpl; [done|].
    rewrite HR. simpl. by rewrite IH.
  - induction n as [|n IH]; simpl; [done|].
    rewrite HV. simpl. by rewrite IH.
Qed.

Lemma Remove_on_empty_witness :
  let rb := RingBuffer_ctor 10 (λ _, 42) in
  m_count rb = 0 ∧
  remove_n rb 7 3 = Some ([(false, 0); (false, 0); (false, 0)], rb).
Proof.
  intros rb. split; [reflexivity|].
  destruct (Remove_on_empty rb 7 7 3) as (_ & _ & E & _); [reflexivity|].
  exact E.
Defined.

(** C6: from a freshly constructed buffer of positive capacity, exactly
    capacity calls of [Add] bring both cursors back to 0; and an index
    advanced step by step from 0 runs through 0, 1, ..., capacity - 1 and
    then starts again at 0. *)
Theorem wraparound `{DataType T} (size : Z) (raw : nat → T) (vals : list T)
    (Hsize : 0 < size < uint16_modulus) (Hlen : length vals = Z.to_nat size) :
  (∃ rb', add_all (RingBuffer_ctor size raw) vals
            = Some (replicate (length vals) true, rb') ∧
     m_front rb' = 0 ∧ m_back rb' = 0 ∧ m_count rb' = size) ∧
  (∀ k : nat,
     AdvanceIndex size (Z.of_nat k mod size) = (Z.of_nat k + 1) mod size) ∧
  (∀ k : nat, Nat.iter k (AdvanceIndex size) 0 = Z.of_nat k mod size) ∧
  AdvanceIndex size (size - 1) = 0.
Proof.
  assert (∀ k : nat,
    AdvanceIndex size (Z.of_nat k mod size) = (Z.of_nat k + 1) mod size) as Hstep.
  { intros k. pose proof (Z.mod_pos_bound (Z.of_nat k) size).
    rewrite AdvanceIndex_mod by lia.
    rewrite Zplus_mod_idemp_l. done. }
  split_and!.
  - destruct (fill_from_ctor size raw vals Hsize Hlen)
      as (full & E & _ & _ & _ & _ & Hc & Hf & Hbk).
    by exists full.
  - exact Hstep.
  - induction k as [|k IH].
    + simpl. by rewrite Z.mod_0_l by lia.
    + rewrite Nat.iter_succ, IH, Hstep. f_equal. lia.
  - rewrite AdvanceIndex_mod by lia.
    replace (size - 1 + 1) with size by lia. apply Z_mod_same_full.
Qed.

Lemma wraparound_witness :
  0 < 4 < uint16_modulus ∧
  ∃ rb', add_all (RingBuffer_ctor 4 (λ _, 0)) [1; 2; 3; 4]
           = Some ([true; true; true; true], rb') ∧
    m_front rb' = 0 ∧ m_back rb' = 0 ∧ m_count rb' = 4.
Proof.
  assert (0 < 4 < uint16_modulus) as Hsize by (unfold uint16_modulus; lia).
  split; [exact Hsize|].
  destruct (wraparound 4 (λ _, 0) [1; 2; 3; 4] Hsize) as [E _]; [reflexivity|].
  exact E.
Defined.

(** C4, evaluated where the code departs from it.  On a buffer of
    capacity 65535, the client that calls [Add] 65536 times ends in a
    state with [m_count = 0] but [m_front = 1] and [m_back = 0]: the count
    says empty while the cursors differ, so the invariant is lost. *)
Theorem invariant_broken_at_max_capacity `{DataType T}
    (raw : nat → T) (v0 v : T) :
  ∃ rb',
    run (RingBuffer_ctor 65535 raw)
        (OpAdd <$> (replicate (Z.to_nat 65535) v0 ++ [v])) = Some rb' ∧
    m_count rb' = 0 ∧ m_front rb' = 1 ∧ m_back rb' = 0 ∧
    ¬ invariant rb'.
Proof.
  assert (length (replicate (Z.to_nat 65535) v0) = Z.to_nat 65535) as Hlen
    by apply length_replicate.
  revert Hlen. generalize (replicate (Z.to_nat 65535) v0). intros vals Hlen.
  destruct (fill_from_ctor 65535 raw vals)
    as (full & E & Hb & Hag & Hh & He & Hc & Hf & Hbk);
    [unfold uint16_modulus; lia | done |].
  eexists. split.
  - rewrite fmap_app, run_app, (run_adds _ _ _ _ E). clear E.
    cbn [mbind option_bind fmap list_fmap run step].
    rewrite Add_full_max by congruence.
    reflexivity.
  - cbn [m_count m_front m_back snd]. rewrite Hf, Hbk, He.
    change ((0 + 1) mod 65535) with 1.
    split_and!; try reflexivity.
    unfold invariant. cbn [m_count m_front m_back m_elements].
    intros (_ & _ & _ & Heq). specialize (Heq (or_introl eq_refl)). lia.
Qed.

(** C3, evaluated where the code departs from it.  On a buffer of
    capacity 65535, 65536 calls of [Add] (the last one with [v1]) leave
    [m_count = 0]: the buffer is empty.  One value [v] added to that
    empty buffer and one [Remove] do not give [v] back: [Add] writes [v]
    into slot 1, [Remove] reads slot 0 and hands out [v1], the value of
    the call that wrapped the count, and [v] stays behind in a buffer
    whose count is 0 again. *)
Theorem fifo_lost_after_count_wrap `{DataType T}
    (raw : nat → T) (v0 v1 v outVal : T) :
  ∃ rb rb1 rb2,
    run (RingBuffer_ctor 65535 raw)
        (OpAdd <$> (replicate (Z.to_nat 65535) v0 ++ [v1])) = Some rb ∧
    m_count rb = 0 ∧
    add_all rb [v] = Some ([true], rb1) ∧
    remove_n rb1 outVal 1 = Some ([(true, v1)], rb2) ∧
    m_count rb2 = 0 ∧
    m_ringbuffer rb2 !! 1%nat = Some v.
Proof.
  assert (length (replicate (Z.to_nat 65535) v0) = Z.to_nat 65535) as Hlen
    by apply length_replicate.
  revert Hlen. generalize (replicate (Z.to_nat 65535) v0). intros vals Hlen.
  destruct (fill_from_ctor 65535 raw vals)
    as (full & E & Hb & Hag & Hh & He & Hc & Hf & Hbk);
    [unfold uint16_modulus; lia | done |].
  pose proof Hb as (_ & Hl & _).
  (* the call that wraps the count *)
  pose proof (Add_full_max full v1 Hb) as E1.
  rewrite Hf, Hbk, He in E1. specialize (E1 Hc eq_refl).
  change ((0 + 1) mod 65535) with 1 in E1.
  set (rb := {| m_elements := 65535;
                m_ringbuffer := <[Z.to_nat 0 := v1]> (m_ringbuffer full);
                m_front := 1; m_back := 0; m_count := 0 |}) in E1.
  assert (bounded rb) as Hrb by eauto using bounded_Add.
  (* one value in *)
  pose proof (Add_not_full rb v Hrb) as E2.
  cbn [m_elements m_ringbuffer m_front m_back m_count rb] in E2.
  specialize (E2 ltac:(lia)).
  change ((1 + 1) mod 65535) with 2 in E2. change (0 + 1) with 1 in E2.
  set (rb1 := {| m_elements := 65535;
                 m_ringbuffer :=
                   <[Z.to_nat 1 := v]> (<[Z.to_nat 0 := v1]> (m_ringbuffer full));
                 m_front := 2; m_back := 0; m_count := 1 |}) in E2.
  assert (bounded rb1) as Hrb1 by eauto using bounded_Add.
  (* and one value out *)
  destruct (Remove_nonempty rb1 outVal Hrb1) as (v' & Hv' & E3); [simpl; lia|].
  cbn [m_elements m_ringbuffer m_front m_back m_count rb1] in Hv', E3.
  rewrite list_lookup_insert_ne in Hv' by lia.
  rewrite list_lookup_insert_eq in Hv' by lia.
  injection Hv' as <-.
  exists rb, rb1. eexists. split_and!.
  - rewrite fmap_app, run_app, (run_adds _ _ _ _ E).
    cbn [mbind option_bind fmap list_fmap run step]. by rewrite E1.
  - reflexivity.
  - cbn [add_all]. by rewrite E2.
  - cbn [remove_n]. by rewrite E3.
  - reflexivity.
  - cbn [m_ringbuffer].
    rewrite list_lookup_insert_ne by lia.
    apply list_lookup_insert_eq. rewrite length_insert. lia.
Qed.

(** C7 fails on the code: the constructor takes capacity 0 like any other
    value and returns a buffer object without slots, on which [Add]
    indexes outside the storage. *)
Lemma ctor_accepts_zero_capacity :
  let rb := RingBuffer_ctor 0 (λ _, 0) in
  GetMaxElements rb = 0 ∧ GetBuffer rb = [] ∧ Add rb 1 = None.
Proof. by vm_compute. Qed.

(** C7 as amended: construction with capacity 0 is not rejected; it
    returns a buffer with no slots and [m_front = m_back = m_count = 0].
    On that buffer every [Add] indexes outside the storage, while [Remove]
    reports [false] and changes nothing. *)
Theorem ctor_zero_capacity `{DataType T} (raw : nat → T) (val outVal : T) :
  let rb := RingBuffer_ctor 0 raw in
  rb = {| m_elements := 0; m_ringbuffer := [];
          m_front := 0; m_back := 0; m_count := 0 |} ∧
  Add rb val = None ∧
  Remove rb outVal = Some (false, zero_bytes, rb).
Proof. done. Qed.

(** C8 fails on the code: the slots of an [int] buffer are not written at
    construction; they show whatever the allocated memory held. *)
Lemma ctor_slots_not_zeroed :
  GetBuffer (RingBuffer_ctor 3 (λ _, 5)) = [5; 5; 5] ∧
  GetBuffer (RingBuffer_ctor 3 (λ _, 5)) ≠ replicate 3 (zero_bytes (T:=Z)).
Proof. split; [reflexivity | discriminate]. Qed.

(** C8 as amended: for every positive capacity, construction gives
    [m_front = m_back = m_count = 0] and a storage of exactly capacity
    slots, each default-initialised: slot [i] holds what
    default-initialisation makes of the memory it is placed on, which for
    [int] is that memory's previous content and for a class with a
    constructor is the constructed value. *)
Theorem ctor_state `{DataType T} (size : Z) (raw : nat → T)
    (Hsize : 0 < size < uint16_modulus) :
  let rb := RingBuffer_ctor size raw in
  m_front rb = 0 ∧ m_back rb = 0 ∧ m_count rb = 0 ∧
  m_elements rb = size ∧
  length (m_ringbuffer rb) = Z.to_nat size ∧
  (∀ i : nat, m_ringbuffer rb !! i =
     if decide (i < Z.to_nat size)%nat then Some (default_init (raw i)) else None) ∧
  invariant rb.
Proof.
  simpl. split_and!; try done.
  - apply length_new_array.
  - intros i. case_decide.
    + by apply lookup_new_array.
    + apply lookup_ge_None_2. rewrite length_new_array. lia.
  - unfold invariant; simpl. lia.
Qed.

Lemma ctor_state_witness :
  0 < 3 < uint16_modulus ∧
  let rb := RingBuffer_ctor 3 (λ i, Z.of_nat i + 5) in
  m_front rb = 0 ∧ m_back rb = 0 ∧ m_count rb = 0 ∧ m_elements rb = 3 ∧
  m_ringbuffer rb = [5; 6; 7].
Proof.
  assert (0 < 3 < uint16_modulus) as Hsize by (unfold uint16_modulus; lia).
  split; [exact Hsize|].
  destruct (ctor_state 3 (λ i, Z.of_nat i + 5) Hsize)
    as (Hf & Hb & Hc & He & _).
  intros rb. split_and!; [exact Hf | exact Hb | exact Hc | exact He | reflexivity].
Defined.

(** A class whose default constructor sets every member does start from
    slots holding its default value. *)
Lemma ctor_tmpClass_slots (size : Z) (raw : nat → tmpClass) :
  m_ringbuffer (RingBuffer_ctor size raw)
  = replicate (Z.to_nat size) {| one := 0; two := 0 |}.
Proof.
  simpl. unfold new_array. simpl.
  generalize 0%nat. induction (Z.to_nat size) as [|n IH]; intros k; simpl.
  - done.
  - by rewrite IH.
Qed.

(** C9: for every state, [Remove()] returns the flag and leaves the
    buffer exactly as [Remove(outVal)] does, whatever the two output
    variables held before; only the removed value is dropped. *)
Theorem Remove_void_agrees `{DataType T} (rb : RingBuffer T) (raw outVal : T) :
  Remove_void rb raw = (λ '(ok, _, rb'), (ok, rb')) <$> Remove rb outVal.
Proof.
  unfold Remove_void. rewrite (Remove_out_irrelevant rb (default_init raw) outVal).
  by destruct (Remove rb outVal) as [[[ok out] rb']|].
Qed.

(** C10: [Add] on a bounded buffer, in full.  With room left it reports
    [true] and counts one more.  On a full buffer of capacity at most
    65534 it reports [false], advances [m_back] and keeps the count.  On a
    full buffer of capacity 65535 the incremented count wraps to 0, the
    comparison with the capacity fails, and [Add] reports [true], does not
    advance [m_back] and leaves [m_count = 0]. *)
Theorem Add_count_wraps_at_max_capacity `{DataType T}
    (rb : RingBuffer T) (val : T) (Hb : bounded rb) :
  let buf := <[Z.to_nat (m_front rb) := val]> (m_ringbuffer rb) in
  let front := (m_front rb + 1) mod m_elements rb in
  Add rb val =
    Some (if decide (m_count rb < m_elements rb) then
            (true,
             {| m_elements := m_elements rb; m_ringbuffer := buf;
                m_front := front; m_back := m_back rb;
                m_count := m_count rb + 1 |})
          else if decide (m_elements rb ≤ 65534) then
            (false,
             {| m_elements := m_elements rb; m_ringbuffer := buf;
                m_front := front;
                m_back := (m_back rb + 1) mod m_elements rb;
                m_count := m_elements rb |})
          else
            (true,
             {| m_elements := m_elements rb; m_ringbuffer := buf;
                m_front := front; m_back := m_back rb;
                m_count := 0 |})) ∧
  wrap16 (65535 + 1) = 0.
Proof.
  simpl. split; [|reflexivity].
  destruct (Add_cases rb Hb) as [Hlt | [[Hfull Hmax] | [Hfull Hmax]]].
  - rewrite decide_True by done. by apply Add_not_full.
  - rewrite decide_False by lia. rewrite decide_True by done.
    by apply Add_full.
  - rewrite decide_False by lia. rewrite decide_False by lia.
    by apply Add_full_max.
Qed.

Lemma Add_count_wraps_at_max_capacity_witness :
  bounded full_max ∧
  m_count full_max = 65535 ∧
  ∃ rb', Add full_max 1 = Some (true, rb') ∧
    m_count rb' = 0 ∧ m_back rb' = m_back full_max.
Proof.
  assert (bounded full_max) as Hb.
  { unfold bounded, uint16_modulus, full_max.
    cbn [m_elements m_ringbuffer m_front m_back m_count].
    rewrite length_replicate. lia. }
  split; [exact Hb|]. split; [reflexivity|].
  destruct (Add_count_wraps_at_max_capacity full_max 1 Hb) as [E _].
  eexists. split; [exact E|]. split; reflexivity.
Defined.

(** ** Further properties of the class *)

Section refinement.
Context `{DataType T}.
Implicit Types rb : RingBuffer T.
Implicit Types q vs : list T.

Lemma sound_Add rb val ok rb' :
  sound rb → Add rb val = Some (ok, rb') → sound rb'.
Proof.
  intros (Hb & Hag & Hmax) E. split_and!.
  - eauto using bounded_Add.
  - eauto using cursors_agree_Add.
  - by rewrite (elements_Add _ _ _ _ E).
Qed.

Lemma sound_Remove rb outVal ok out rb' :
  sound rb → Remove rb outVal = Some (ok, out, rb') → sound rb'.
Proof.
  intros (Hb & Hag & Hmax) E. split_and!.
  - eauto using bounded_Remove.
  - eauto using cursors_agree_Remove.
  - by rewrite (elements_Remove _ _ _ _ _ E).
Qed.

Lemma step_log_fifo rb q o :
  sound rb → holds rb q →
  ∃ rb', step_log rb o = Some (fst (fifo_step (m_elements rb) q o), rb') ∧
    holds rb' (snd (fifo_step (m_elements rb) q o)) ∧
    sound rb' ∧ m_elements rb' = m_elements rb.
Proof.
  intros Hs Hh. pose proof Hs as (Hb & Hag & Hmax).
  pose proof Hb as (He & Hl & Hf & Hbk & Hc). pose proof Hh as [Hlen _].
  destruct o as [val | outVal]; simpl.
  - case_decide as Hroom; simpl.
    + destruct (holds_Add_not_full rb val q) as (rb' & E & Hh');
        [done.. | lia |].
      rewrite E. simpl. exists rb'.
      split_and!; eauto using sound_Add, elements_Add.
    + destruct (holds_Add_full rb val q) as (rb' & E & Hh');
        [done.. | lia | done |].
      rewrite E. simpl. exists rb'.
      split_and!; eauto using sound_Add, elements_Add.
  - destruct q as [|v q]; simpl.
    + rewrite Remove_empty by (simpl in Hlen; lia). simpl.
      exists rb. by split_and!.
    + destruct (holds_Remove rb outVal v q) as (rb' & E & Hh'); [done..|].
      rewrite E. simpl. exists rb'.
      split_and!; eauto using sound_Remove, elements_Remove.
Qed.
End refinement.

(** X1: on a buffer of capacity at most 65534 the class behaves, call by
    call, like a first-in-first-out queue bounded by the capacity that
    drops its oldest value on overflow: every sequence of [Add] and
    [Remove] runs without an out-of-range access, returns the flags and
    values the queue returns, and ends holding what the queue holds. *)
Theorem ring_buffer_refines_fifo `{DataType T} (ops : list op)
    (rb : RingBuffer T) (q : list T) (Hs : sound rb) (Hh : holds rb q) :
  ∃ rb', run_log rb ops = Some (fst (fifo_run (m_elements rb) q ops), rb') ∧
    holds rb' (snd (fifo_run (m_elements rb) q ops)) ∧ sound rb'.
Proof.
  revert rb q Hs Hh.
  induction ops as [|o ops IH]; intros rb q Hs Hh; simpl.
  - by exists rb.
  - destruct (step_log_fifo rb q o Hs Hh) as (rb1 & E1 & Hh1 & Hs1 & He1).
    destruct (fifo_step (m_elements rb) q o) as [r q1]; simpl in *.
    destruct (IH rb1 q1 Hs1 Hh1) as (rb2 & E2 & Hh2 & Hs2).
    rewrite He1 in E2, Hh2.
    destruct (fifo_run (m_elements rb) q1 ops) as [rs q2]; simpl in *.
    rewrite E1. simpl. rewrite E2. simpl. by exists rb2.
Qed.

Lemma ring_buffer_refines_fifo_witness :
  let rb := RingBuffer_ctor 2 (λ _, 9) in
  sound rb ∧ holds rb [] ∧
  ∃ rb', run_log rb [OpAdd 1; OpAdd 2; OpAdd 3; OpRemove 0; OpRemove 0; OpRemove 0]
         = Some ([AddResult true; AddResult true; AddResult false;
                  RemoveResult true 2; RemoveResult true 3;
                  RemoveResult false 0], rb') ∧
    holds rb' [].
Proof.
  intros rb.
  assert (sound rb) as Hs.
  { unfold sound, bounded, cursors_agree, uint16_modulus; simpl.
    split_and!; (reflexivity || lia). }
  assert (holds rb []) as Hh.
  { split; [reflexivity|]. simpl. intros i Hi. lia. }
  split; [exact Hs|]. split; [exact Hh|].
  destruct (ring_buffer_refines_fifo
              [OpAdd 1; OpAdd 2; OpAdd 3; OpRemove 0; OpRemove 0; OpRemove 0]
              rb [] Hs Hh) as (rb' & E & Hh' & _).
  exists rb'. split; [exact E | exact Hh'].
Defined.

Section window.
Context `{DataType T}.
Implicit Types rb : RingBuffer T.
Implicit Types q vs vals : list T.

Lemma holds_length rb q :
  bounded rb → holds rb q → (length q ≤ Z.to_nat (m_elements rb))%nat.
Proof. intros (_ & _ & _ & _ & Hc) [Hlen _]. lia. Qed.

(** The occupied span always reads as some list, and only one. *)
Lemma holds_exists rb : bounded rb → ∃ q, holds rb q.
Proof.
  intros (He & Hl & Hf & Hbk & Hc).
  exists ((λ i : nat, default zero_bytes
            (m_ringbuffer rb
               !! Z.to_nat ((m_back rb + Z.of_nat i) mod m_elements rb)))
          <$> seq 0 (Z.to_nat (m_count rb))).
  split.
  - rewrite length_fmap, length_seq. lia.
  - intros i Hi. rewrite length_fmap, length_seq in Hi.
    rewrite list_lookup_fmap, lookup_seq_lt by done. simpl.
    pose proof (Z.mod_pos_bound (m_back rb + Z.of_nat i) (m_elements rb)).
    destruct (lookup_lt_is_Some_2 (m_ringbuffer rb)
                (Z.to_nat ((m_back rb + Z.of_nat i) mod m_elements rb)))
      as [x ->]; [lia | done].
Qed.

Lemma holds_unique rb q q' : holds rb q → holds rb q' → q = q'.
Proof.
  intros [Hlen Hq] [Hlen' Hq']. apply list_eq. intros i.
  destruct (decide (i < length q)%nat) as [Hi | Hi].
  - rewrite <- Hq by done. rewrite <- Hq' by lia. done.
  - rewrite !lookup_ge_None_2 by lia. done.
Qed.

(** A full buffer whose oldest element sits in slot 0 stores its values
    in order. *)
Lemma holds_full_from_zero rb q :
  bounded rb → holds rb q → m_back rb = 0 → m_count rb = m_elements rb →
  m_ringbuffer rb = q.
Proof.
  intros (He & Hl & Hf & Hbk & Hc) [Hlen Hq] Hz Hfull. apply list_eq. intros i.
  destruct (decide (i < length q)%nat) as [Hi | Hi].
  - rewrite <- Hq by done. rewrite Hz, Z.add_0_l, Z.mod_small by lia.
    by rewrite Nat2Z.id.
  - rewrite !lookup_ge_None_2 by lia. done.
Qed.

Lemma add_all_window vals : ∀ rb q,
  sound rb → holds rb q →
  ∃ rb',
    add_all rb vals =
      Some (replicate (Nat.min (Z.to_nat (m_elements rb) - length q) (length vals)) true
              ++ replicate (length vals - (Z.to_nat (m_elements rb) - length q)) false,
            rb') ∧
    holds rb' (drop (length q + length vals - Z.to_nat (m_elements rb)) (q ++ vals)) ∧
    sound rb' ∧ m_elements rb' = m_elements rb ∧
    m_front rb' = (m_front rb + Z.of_nat (length vals)) mod m_elements rb.
Proof.
  induction vals as [|v vals IH]; intros rb q Hs Hh.
  - pose proof Hs as (Hb & _ & _). pose proof (holds_length rb q Hb Hh).
    pose proof Hb as (He & Hl & Hf & Hbk & Hc).
    exists rb. simpl. rewrite Nat.min_0_r, app_nil_r. simpl.
    replace (length q + 0 - Z.to_nat (m_elements rb))%nat with 0%nat by lia.
    rewrite Z.add_0_r, Z.mod_small by lia. rewrite drop_0, app_nil_r. by split_and!.
  - pose proof Hs as (Hb & Hag & Hmax). pose proof (holds_length rb q Hb Hh).
    pose proof Hb as (He & Hl & Hf & Hbk & Hc). pose proof Hh as [Hlen _].
    destruct (decide (length q < Z.to_nat (m_elements rb))%nat) as [Hroom | Hfull].
    + destruct (holds_Add_not_full rb v q) as (rb1 & E & Hh1); [done.. | lia |].
      pose proof (sound_Add _ _ _ _ Hs E) as Hs1.
      pose proof (elements_Add _ _ _ _ E) as He1.
      assert (m_front rb1 = (m_front rb + 1) mod m_elements rb) as Hf1.
      { rewrite Add_not_full in E by (done || lia). by injection E as <-. }
      destruct (IH rb1 (q ++ [v]) Hs1 Hh1) as (rb2 & E2 & Hh2 & Hs2 & He2 & Hf2).
      exists rb2. cbn [add_all]. rewrite E. simpl. rewrite E2. simpl.
      rewrite He1, length_app in *. simpl in *.
      rewrite <- app_assoc in Hh2. simpl in Hh2.
      split_and!; try done; try congruence.
      * do 2 f_equal.
        replace (Z.to_nat (m_elements rb) - length q)%nat
          with (S (Z.to_nat (m_elements rb) - (length q + 1)))%nat by lia.
        simpl. done.
      * by replace (length q + S (length vals))%nat
          with (length q + 1 + length vals)%nat by lia.
      * rewrite Hf2, Hf1, Zplus_mod_idemp_l. f_equal. lia.
    + destruct (holds_Add_full rb v q) as (rb1 & E & Hh1); [done.. | lia | done |].
      pose proof (sound_Add _ _ _ _ Hs E) as Hs1.
      pose proof (elements_Add _ _ _ _ E) as He1.
      assert (m_front rb1 = (m_front rb + 1) mod m_elements rb) as Hf1.
      { rewrite Add_full in E by (done || lia). by injection E as <-. }
      destruct (IH rb1 (drop 1 q ++ [v]) Hs1 Hh1)
        as (rb2 & E2 & Hh2 & Hs2 & He2 & Hf2).
      exists rb2. cbn [add_all]. rewrite E. simpl. rewrite E2. simpl.
      rewrite He1, length_app, length_drop in *. simpl in *.
      rewrite <- app_assoc in Hh2. simpl in Hh2.
      destruct q as [|x q]; [simpl in *; lia|]. simpl in *.
      rewrite drop_0 in *.
      split_and!; try done; try congruence.
      * do 2 f_equal.
        replace (Z.to_nat (m_elements rb) - S (length q))%nat with 0%nat by lia.
        replace (length q - 0 + 1)%nat with (S (length q)) by lia.
        replace (Z.to_nat (m_elements rb) - S (length q))%nat with 0%nat by lia.
        simpl. by rewrite Nat.sub_0_r.
      * replace (S (length q + S (length vals)) - Z.to_nat (m_elements rb))%nat
          with (S (length vals)) by lia.
        replace (length q - 0 + 1 + length vals - Z.to_nat (m_elements rb))%nat
          with (length vals) in Hh2 by lia.
        done.
      * rewrite Hf2, Hf1, Zplus_mod_idemp_l. f_equal. lia.
Qed.
End window.

(** X2: [Add] called on each of [vals] in turn, on a buffer of capacity
    at most 65534 that holds [q], leaves the buffer holding the last
    capacity values of [q ++ vals] (all of them if they fit); the calls
    that found room report [true], all later ones report [false]; and
    [m_front] has advanced by the number of calls modulo the capacity. *)
Theorem Add_keeps_latest `{DataType T} (rb : RingBuffer T) (q vals : list T)
    (Hs : sound rb) (Hh : holds rb q) :
  let capacity := Z.to_nat (m_elements rb) in
  ∃ rb',
    add_all rb vals =
      Some (replicate (Nat.min (capacity - length q) (length vals)) true
              ++ replicate (length vals - (capacity - length q)) false,
            rb') ∧
    holds rb' (drop (length q + length vals - capacity) (q ++ vals)) ∧
    m_front rb' = (m_front rb + Z.of_nat (length vals)) mod m_elements rb ∧
    sound rb'.
Proof.
  simpl.
  destruct (add_all_window vals rb q Hs Hh) as (rb' & E & Hh' & Hs' & _ & Hf').
  by exists rb'.
Qed.

Lemma Add_keeps_latest_witness :
  let rb := RingBuffer_ctor 3 (λ _, 9) in
  sound rb ∧ holds rb [] ∧
  ∃ rb', add_all rb [1; 2; 3; 4; 5]
         = Some ([true; true; true; false; false], rb') ∧
    holds rb' [3; 4; 5] ∧ m_front rb' = 2.
Proof.
  intros rb.
  assert (sound rb) as Hs.
  { unfold sound, bounded, cursors_agree, uint16_modulus; simpl.
    split_and!; (reflexivity || lia). }
  assert (holds rb []) as Hh.
  { split; [reflexivity|]. simpl. intros i Hi. lia. }
  split; [exact Hs|]. split; [exact Hh|].
  destruct (Add_keeps_latest rb [] [1; 2; 3; 4; 5] Hs Hh)
    as (rb' & E & Hh' & Hf' & _).
  exists rb'. split; [exact E|]. split; [exact Hh' | exact Hf'].
Defined.

(** [PopulateAll] is [Add] called on 1, 2, ..., [m_elements]. *)
Lemma PopulateAll_loop_add_all fuel : ∀ (rb : RingBuffer Z) (i : Z),
  i + Z.of_nat fuel = m_elements rb + 1 →
  PopulateAll_loop fuel rb i = snd <$> add_all rb (seqZ i (Z.of_nat fuel)).
Proof.
  induction fuel as [|fuel IH]; intros rb i Hi.
  - simpl. by rewrite decide_False by lia.
  - rewrite seqZ_cons by lia. cbn [PopulateAll_loop add_all].
    rewrite decide_True by lia.
    destruct (Add rb i) as [[ok rb1]|] eqn:E; simpl; [|done].
    rewrite IH by (rewrite (elements_Add _ _ _ _ E); lia).
    replace (Z.pred (Z.of_nat (S fuel))) with (Z.of_nat fuel) by lia.
    replace (Z.succ i) with (i + 1) by lia.
    by destruct (add_all rb1 (seqZ (i + 1) (Z.of_nat fuel))) as [[oks rb2]|].
Qed.

Lemma PopulateAll_add_all (rb : RingBuffer Z) :
  0 ≤ m_elements rb →
  PopulateAll rb = snd <$> add_all rb (seqZ 1 (m_elements rb)).
Proof.
  intros He. unfold PopulateAll.
  rewrite PopulateAll_loop_add_all by lia. by rewrite Z2Nat.id by done.
Qed.

(** X3: on a freshly constructed [int] buffer of any capacity from 0 to
    65535, [PopulateAll] ends with the storage reading 1, 2, ...,
    capacity, both cursors at 0 and the count at the capacity; with
    capacity 0 it makes no call at all. *)
Theorem PopulateAll_fresh (size : Z) (raw : nat → Z)
    (Hsize : 0 ≤ size < uint16_modulus) :
  PopulateAll (RingBuffer_ctor size raw) =
    Some {| m_elements := size; m_ringbuffer := seqZ 1 size;
            m_front := 0; m_back := 0; m_count := size |}.
Proof.
  destruct (decide (size = 0)) as [-> | Hpos]; [reflexivity|].
  rewrite PopulateAll_add_all by (simpl; lia). simpl.
  destruct (fill_from_ctor size raw (seqZ 1 size))
    as (full & E & Hb & _ & Hh & He & Hc & Hf & Hbk).
  { lia. }
  { rewrite length_seqZ. lia. }
  rewrite E. simpl. f_equal.
  pose proof (holds_full_from_zero full _ Hb Hh Hbk) as Hbuf.
  destruct full as [e buf f b c]; simpl in *. subst.
  by rewrite Hbuf.
Qed.

Lemma PopulateAll_fresh_witness :
  0 ≤ 4 < uint16_modulus ∧
  PopulateAll (RingBuffer_ctor 4 (λ _, 9)) =
    Some {| m_elements := 4; m_ringbuffer := [1; 2; 3; 4];
            m_front := 0; m_back := 0; m_count := 4 |}.
Proof.
  assert (0 ≤ 4 < uint16_modulus) as Hsize by (unfold uint16_modulus; lia).
  split; [exact Hsize|].
  exact (PopulateAll_fresh 4 (λ _, 9) Hsize).
Defined.

(** X4: whatever an [int] buffer of capacity at most 65534 holds,
    [PopulateAll] leaves it full, holding 1, 2, ..., capacity oldest
    first, with [m_front] where it was and [m_back] at the same slot. *)
Theorem PopulateAll_refills (rb : RingBuffer Z) (Hs : sound rb) :
  ∃ rb', PopulateAll rb = Some rb' ∧
    holds rb' (seqZ 1 (m_elements rb)) ∧
    m_count rb' = m_elements rb ∧
    m_front rb' = m_front rb ∧ m_back rb' = m_front rb ∧
    sound rb'.
Proof.
  pose proof Hs as (Hb & Hag & Hmax).
  pose proof Hb as (He & Hl & Hf & Hbk & Hc).
  destruct (holds_exists rb Hb) as [q Hq].
  pose proof (holds_length rb q Hb Hq) as Hq_len.
  destruct (add_all_window (seqZ 1 (m_elements rb)) rb q Hs Hq)
    as (rb' & E & Hh' & Hs' & He' & Hf').
  rewrite length_seqZ in *.
  exists rb'. rewrite PopulateAll_add_all by lia. rewrite E. simpl.
  replace (length q + Z.to_nat (m_elements rb) - Z.to_nat (m_elements rb))%nat
    with (length q) in Hh' by lia.
  rewrite drop_app_length in Hh'.
  assert (m_count rb' = m_elements rb) as Hc'.
  { destruct Hh' as [Hlen' _]. rewrite length_seqZ in Hlen'. lia. }
  assert (m_front rb' = m_front rb) as Hfront.
  { rewrite Hf'. rewrite Z2Nat.id by lia. reduce_mod; lia. }
  split_and!; try done.
  destruct Hs' as (Hb' & Hag' & _).
  destruct (invariant_of_cursors rb' Hb' Hag') as (_ & _ & _ & Hfb).
  rewrite <- Hfront. symmetry. apply Hfb. right. congruence.
Qed.

Lemma PopulateAll_refills_witness :
  sound wrapped_twice ∧
  ∃ rb', PopulateAll wrapped_twice = Some rb' ∧
    m_ringbuffer rb' = [9; 10; 1; 2; 3; 4; 5; 6; 7; 8] ∧
    m_front rb' = 2 ∧ m_back rb' = 2 ∧ m_count rb' = 10.
Proof.
  assert (sound wrapped_twice) as Hs.
  { unfold sound, bounded, cursors_agree, uint16_modulus; simpl.
    split_and!; (reflexivity || lia). }
  split; [exact Hs|].
  destruct (PopulateAll_refills wrapped_twice Hs)
    as (rb' & E & _ & Hc & Hf & Hbk & _).
  exists rb'. split; [exact E|].
  vm_compute in E. injection E as <-. by vm_compute.
Defined.

Section zeroing.
Context `{DataType T}.
Implicit Types rb : RingBuffer T.

(** Starting anywhere, a span as long as the storage reaches every slot. *)
Lemma span_covers (c b : Z) (j : nat) :
  0 < c → 0 ≤ b < c → (j < Z.to_nat c)%nat →
  ∃ i : nat, Z.of_nat i < c ∧ Z.to_nat ((b + Z.of_nat i) mod c) = j.
Proof.
  intros Hc Hb Hj.
  destruct (decide (b ≤ Z.of_nat j)) as [Hle | Hgt].
  - exists (Z.to_nat (Z.of_nat j - b)). split; [lia|]. reduce_mod; lia.
  - exists (Z.to_nat (Z.of_nat j + c - b)). split; [lia|]. reduce_mod; lia.
Qed.

(** A full buffer has no vacant slot. *)
Lemma clean_full rb : bounded rb → m_count rb = m_elements rb → clean rb.
Proof.
  intros (He & Hl & Hf & Hbk & Hc) Hfull j [Hj Hvac]. exfalso.
  destruct (span_covers (m_elements rb) (m_back rb) j) as (i & Hi & Hij);
    [lia.. |].
  apply (Hvac i); [lia | done].
Qed.

Lemma clean_Add rb val ok rb' :
  sound rb → clean rb → Add rb val = Some (ok, rb') → clean rb'.
Proof.
  intros Hs Hcl E. pose proof Hs as (Hb & Hag & Hmax).
  pose proof Hb as (He & Hl & Hf & Hbk & Hc).
  destruct (decide (m_count rb < m_elements rb)) as [Hroom | Hfull].
  - rewrite Add_not_full in E by done. injection E as <- <-.
    intros j [Hj Hvac]. simpl in *. rewrite length_insert in Hj.
    assert (Z.to_nat (m_front rb) ≠ j) as Hne.
    { unfold cursors_agree in Hag. rewrite Hag.
      specialize (Hvac (Z.to_nat (m_count rb))).
      rewrite Z2Nat.id in Hvac by lia. apply Hvac. lia. }
    rewrite list_lookup_insert_ne by done.
    apply Hcl. split; [done|]. intros i Hi. apply Hvac. lia.
  - apply clean_full; [eauto using bounded_Add|].
    rewrite Add_full in E by (done || lia). by injection E as <- <-.
Qed.

Lemma clean_Remove rb outVal ok out rb' :
  bounded rb → clean rb → Remove rb outVal = Some (ok, out, rb') → clean rb'.
Proof.
  intros Hb Hcl E. pose proof Hb as (He & Hl & Hf & Hbk & Hc).
  destruct (decide (0 < m_count rb)) as [Hpos | Hzero].
  - destruct (Remove_nonempty rb outVal Hb Hpos) as (v & _ & E').
    rewrite E' in E. injection E as <- <- <-.
    intros j [Hj Hvac]. simpl in *. rewrite length_insert in Hj.
    destruct (decide (Z.to_nat (m_back rb) = j)) as [<- | Hne].
    + apply list_lookup_insert_eq. lia.
    + rewrite list_lookup_insert_ne by done.
      apply Hcl. split; [done|]. intros i Hi.
      destruct i as [|i].
      * rewrite Z.add_0_r, Z.mod_small by lia. done.
      * specialize (Hvac i). intros Heq. apply Hvac; [lia|].
        rewrite <- Heq. f_equal. reduce_mod; lia.
  - rewrite Remove_empty in E by lia. by injection E as <- <- <-.
Qed.

(** An empty buffer has only vacant slots. *)
Lemma clean_empty_storage rb :
  bounded rb → clean rb → m_count rb = 0 →
  m_ringbuffer rb = replicate (Z.to_nat (m_elements rb)) zero_bytes.
Proof.
  intros (He & Hl & Hf & Hbk & Hc) Hcl Hempty. apply list_eq. intros j.
  destruct (decide (j < Z.to_nat (m_elements rb))%nat) as [Hj | Hj].
  - rewrite lookup_replicate_2 by done.
    apply Hcl. split; [lia|]. intros i Hi. lia.
  - rewrite lookup_ge_None_2 by lia.
    symmetry. apply lookup_ge_None_2. rewrite length_replicate. lia.
Qed.

Lemma remove_n_out_irrelevant rb outVal outVal' n :
  remove_n rb outVal n = remove_n rb outVal' n.
Proof. by destruct n. Qed.

Lemma remove_n_app n k : ∀ rb outVal,
  remove_n rb outVal (n + k) =
    '(res1, rb1) ← remove_n rb outVal n;
    '(res2, rb2) ← remove_n rb1 outVal k;
    Some (res1 ++ res2, rb2).
Proof.
  induction n as [|n IH]; intros rb outVal.
  - simpl. by destruct (remove_n rb outVal k) as [[res2 rb2]|].
  - cbn [Nat.add remove_n].
    destruct (Remove rb outVal) as [[[ok out] rb1]|]; simpl; [|done].
    rewrite IH.
    rewrite (remove_n_out_irrelevant rb1 out outVal n).
    destruct (remove_n rb1 outVal n) as [[res1 rb2]|]; simpl; [|done].
    rewrite (remove_n_out_irrelevant rb2 out outVal k).
    by destruct (remove_n rb2 outVal k) as [[res2 rb3]|].
Qed.

Lemma remove_n_empty rb outVal n :
  m_count rb = 0 →
  remove_n rb outVal n = Some (replicate n (false, zero_bytes), rb).
Proof.
  intros Hempty. revert outVal.
  induction n as [|n IH]; intros outVal; simpl; [done|].
  rewrite Remove_empty by done. simpl. by rewrite IH.
Qed.

(** Draining moves [m_back] over the whole occupied span. *)
Lemma remove_n_back vs : ∀ rb outVal,
  bounded rb → holds rb vs →
  ∃ rb', remove_n rb outVal (length vs) = Some ((λ v, (true, v)) <$> vs, rb') ∧
    m_count rb' = 0 ∧ m_front rb' = m_front rb ∧
    m_back rb' = (m_back rb + Z.of_nat (length vs)) mod m_elements rb.
Proof.
  induction vs as [|v vs IH]; intros rb outVal Hb Hh.
  - exists rb. destruct Hh as [Hlen _]. simpl in *.
    destruct Hb as (He & Hl & Hf & Hbk & Hc).
    rewrite Z.add_0_r, Z.mod_small by lia. split_and!; (done || lia).
  - destruct (holds_Remove rb outVal v vs Hb Hh) as (rb1 & E & Hh1).
    assert (bounded rb1) as Hb1 by eauto using bounded_Remove.
    destruct (IH rb1 v Hb1 Hh1) as (rb2 & E2 & Hc2 & Hf2 & Hbk2).
    cbn [remove_n length]. rewrite E. simpl. rewrite E2. simpl. exists rb2.
    destruct (Remove_nonempty rb outVal Hb) as (v' & _ & E').
    { destruct Hh as [Hlen _]. simpl in Hlen. lia. }
    rewrite E' in E. injection E as _ <-. simpl in *.
    split_and!; try done.
    rewrite Hbk2, Zplus_mod_idemp_l. f_equal. lia.
Qed.
End zeroing.

(** X5: [Remove(outVal)] called more often than the buffer has values:
    the first calls hand out the values oldest first and report [true],
    every further call reports [false] and leaves the zero value in
    [outVal]; the buffer ends empty with [m_front] untouched and [m_back]
    moved on by the number of values it held, modulo the capacity. *)
Theorem Remove_past_empty `{DataType T} (rb : RingBuffer T) (q : list T)
    (outVal : T) (k : nat) (Hb : bounded rb) (Hh : holds rb q) :
  ∃ rb',
    remove_n rb outVal (length q + k) =
      Some (((λ v, (true, v)) <$> q) ++ replicate k (false, zero_bytes), rb') ∧
    m_count rb' = 0 ∧ m_front rb' = m_front rb ∧
    m_back rb' = (m_back rb + m_count rb) mod m_elements rb.
Proof.
  destruct (remove_n_back q rb outVal Hb Hh) as (rb' & E & Hc & Hf & Hbk).
  exists rb'. rewrite remove_n_app, E. simpl.
  rewrite remove_n_empty by done. simpl.
  destruct Hh as [<- _]. by split_and!.
Qed.

Lemma Remove_past_empty_witness :
  bounded wrapped_twice ∧
  holds wrapped_twice [3; 4; 5; 6; 7; 8; 9; 10; 11; 12] ∧
  ∃ rb',
    remove_n wrapped_twice 0 12 =
      Some ([(true, 3); (true, 4); (true, 5); (true, 6); (true, 7); (true, 8);
             (true, 9); (true, 10); (true, 11); (true, 12);
             (false, 0); (false, 0)], rb') ∧
    m_count rb' = 0 ∧ m_front rb' = 2 ∧ m_back rb' = 2.
Proof.
  assert (bounded wrapped_twice) as Hb.
  { unfold bounded, uint16_modulus; simpl. lia. }
  assert (holds wrapped_twice [3; 4; 5; 6; 7; 8; 9; 10; 11; 12]) as Hh.
  { split; [reflexivity|]. simpl. intros i Hi.
    do 10 (destruct i as [|i]; [reflexivity|]). lia. }
  split; [exact Hb|]. split; [exact Hh|].
  destruct (Remove_past_empty wrapped_twice _ 0 2 Hb Hh)
    as (rb' & E & Hc & Hf & Hbk).
  exists rb'. split; [exact E|]. split; [exact Hc|]. split; [exact Hf | exact Hbk].
Defined.

(** X6: the zeroing done by [Remove] is an invariant.  On a buffer of
    capacity at most 65534 that is full, or whose slots outside the
    occupied span all read as zero, every sequence of [Add] and [Remove]
    ends in a state whose slots outside the occupied span all read as
    zero; when that state is empty, the whole storage is zero. *)
Theorem vacated_slots_stay_zero `{DataType T} (rb : RingBuffer T) (ops : list op)
    (Hs : sound rb) (Hstart : m_count rb = m_elements rb ∨ clean rb) :
  ∃ rb', run rb ops = Some rb' ∧ clean rb' ∧
    (m_count rb' = 0 →
     m_ringbuffer rb' = replicate (Z.to_nat (m_elements rb')) zero_bytes).
Proof.
  assert (clean rb) as Hcl.
  { destruct Hstart as [Hfull | Hcl]; [|done].
    destruct Hs as (Hb & _ & _). by apply clean_full. }
  clear Hstart.
  assert (∃ rb', run rb ops = Some rb' ∧ clean rb' ∧ sound rb')
    as (rb' & E & Hcl' & Hs').
  { revert rb Hs Hcl. induction ops as [|o ops IH]; intros rb Hs Hcl; simpl.
    - by exists rb.
    - destruct (sound_step rb o Hs) as (rb1 & E1 & Hs1). rewrite E1. simpl.
      apply IH; [done|]. pose proof Hs as (Hb & _ & _).
      destruct o as [val | outVal]; simpl in E1.
      + destruct (Add rb val) as [[ok rb2]|] eqn:EA; [|done].
        injection E1 as <-. eauto using clean_Add.
      + destruct (Remove rb outVal) as [[[ok out] rb2]|] eqn:ER; [|done].
        injection E1 as <-. eauto using clean_Remove. }
  exists rb'. split_and!; [done | done |].
  destruct Hs' as (Hb' & _ & _). by apply clean_empty_storage.
Qed.

Lemma vacated_slots_stay_zero_witness :
  sound wrapped_twice ∧
  (m_count wrapped_twice = m_elements wrapped_twice ∨ clean wrapped_twice) ∧
  ∃ rb', run wrapped_twice (replicate 10 (OpRemove 0)) = Some rb' ∧
    m_count rb' = 0 ∧
    m_ringbuffer rb' = replicate (Z.to_nat (m_elements rb')) 0.
Proof.
  assert (sound wrapped_twice) as Hs.
  { unfold sound, bounded, cursors_agree, uint16_modulus; simpl.
    split_and!; (reflexivity || lia). }
  assert (m_count wrapped_twice = m_elements wrapped_twice
          ∨ clean wrapped_twice) as Hstart by (left; reflexivity).
  split; [exact Hs|]. split; [exact Hstart|].
  destruct (vacated_slots_stay_zero wrapped_twice
              (replicate 10 (OpRemove 0)) Hs Hstart) as (rb' & E & _ & Hz).
  exists rb'. split; [exact E|].
  assert (m_count rb' = 0) as Hc.
  { vm_compute in E. injection E as <-. reflexivity. }
  split; [exact Hc | exact (Hz Hc)].
Defined.

Section accounting.
Context `{DataType T}.
Implicit Types rb : RingBuffer T.

Lemma length_Add rb val ok rb' :
  Add rb val = Some (ok, rb') →
  length (m_ringbuffer rb') = length (m_ringbuffer rb).
Proof.
  unfold Add. destruct (span_store _ _ _) as [buf|] eqn:Es; simpl; [|done].
  unfold span_store in Es. case_decide; [|done]. injection Es as <-.
  case_decide; intros [= <- <-]; simpl; apply length_insert.
Qed.

Lemma length_Remove rb outVal ok out rb' :
  Remove rb outVal = Some (ok, out, rb') →
  length (m_ringbuffer rb') = length (m_ringbuffer rb).
Proof.
  unfold Remove. case_decide; [|by intros [= <- <- <-]].
  destruct (span_load _ _); simpl; [|done].
  destruct (span_store _ _ _) as [buf|] eqn:Es; simpl; [|done].
  unfold span_store in Es. case_decide; [|done]. injection Es as <-.
  intros [= <- <- <-]; simpl. apply length_insert.
Qed.

Lemma count_step_log rb o r rb' :
  sound rb → step_log rb o = Some (r, rb') →
  m_count rb' = m_count rb + count_change r ∧ sound rb'.
Proof.
  intros Hs. pose proof Hs as (Hb & Hag & Hmax).
  pose proof Hb as (He & Hl & Hf & Hbk & Hc).
  destruct o as [val | outVal]; simpl.
  - destruct (Add rb val) as [[ok rb1]|] eqn:E; simpl; [|done].
    intros [= <- <-]. split; [|eauto using sound_Add].
    destruct (decide (m_count rb < m_elements rb)) as [Hroom | Hfull].
    + rewrite Add_not_full in E by done. by injection E as <- <-.
    + rewrite Add_full in E by (done || lia). injection E as <- <-.
      simpl. lia.
  - destruct (Remove rb outVal) as [[[ok out] rb1]|] eqn:E; simpl; [|done].
    intros [= <- <-]. split; [|eauto using sound_Remove].
    destruct (decide (0 < m_count rb)) as [Hpos | Hzero].
    + destruct (Remove_nonempty rb outVal Hb Hpos) as (v & _ & E').
      rewrite E' in E. injection E as <- <- <-. simpl. lia.
    + rewrite Remove_empty in E by lia. injection E as <- <- <-. simpl. lia.
Qed.

Lemma run_keeps_storage (ops : list op) : ∀ rb rb',
  run rb ops = Some rb' →
  m_elements rb' = m_elements rb ∧
  length (m_ringbuffer rb') = length (m_ringbuffer rb).
Proof.
  induction ops as [|o ops IH]; intros rb rb'; simpl.
  - by intros [= <-].
  - destruct (step rb o) as [rb1|] eqn:E; simpl; [|done].
    intros Hrun. destruct (IH rb1 rb' Hrun) as [-> ->].
    destruct o as [val | outVal]; simpl in E.
    + destruct (Add rb val) as [[ok rb2]|] eqn:EA; [|done].
      injection E as <-. eauto using elements_Add, length_Add.
    + destruct (Remove rb outVal) as [[[ok out] rb2]|] eqn:ER; [|done].
      injection E as <-. eauto using elements_Remove, length_Remove.
Qed.
End accounting.

(** X7: neither [Add] nor [Remove] ever changes the capacity or the
    number of slots of the storage, in whatever state they are called. *)
Theorem storage_never_resized `{DataType T} (ops : list op)
    (rb rb' : RingBuffer T) (Hrun : run rb ops = Some rb') :
  m_elements rb' = m_elements rb ∧
  length (m_ringbuffer rb') = length (m_ringbuffer rb).
Proof. by apply (run_keeps_storage ops). Qed.

Lemma storage_never_resized_witness :
  let ops := [OpAdd 13; OpRemove 0; OpRemove 0; OpAdd 14] in
  let rb' := {| m_elements := 10;
                m_ringbuffer := [11; 12; 13; 14; 0; 6; 7; 8; 9; 10];
                m_front := 4; m_back := 5; m_count := 9 |} in
  run wrapped_twice ops = Some rb' ∧
  m_elements rb' = 10 ∧ length (m_ringbuffer rb') = 10%nat.
Proof.
  intros ops rb'.
  assert (run wrapped_twice ops = Some rb') as Hrun by reflexivity.
  split; [exact Hrun|].
  exact (storage_never_resized ops wrapped_twice rb' Hrun).
Defined.

(** X8: the flags account for the count.  On a buffer of capacity at
    most 65534, after any sequence of calls [m_count] is its old value
    plus the number of [Add]s that reported [true] minus the number of
    [Remove]s that reported [true]; calls reporting [false] leave it
    alone. *)
Theorem count_follows_flags `{DataType T} (ops : list op)
    (rb rb' : RingBuffer T) (rs : list result)
    (Hs : sound rb) (Hrun : run_log rb ops = Some (rs, rb')) :
  m_count rb' = m_count rb + foldr (λ r n, count_change r + n) 0 rs.
Proof.
  revert rb rs Hs Hrun. induction ops as [|o ops IH]; intros rb rs Hs; simpl.
  - intros [= <- <-]. simpl. lia.
  - destruct (step_log rb o) as [[r rb1]|] eqn:E; simpl; [|done].
    destruct (run_log rb1 ops) as [[rs1 rb2]|] eqn:E2; simpl; [|done].
    intros [= <- <-].
    destruct (count_step_log rb o r rb1 Hs E) as [Hc Hs1].
    rewrite (IH rb1 rs1 Hs1 E2), Hc. simpl. lia.
Qed.

Lemma count_follows_flags_witness :
  let ops := [OpAdd 13; OpRemove 0; OpRemove 0; OpAdd 14] in
  let rs := [AddResult false; RemoveResult true 4; RemoveResult true 5;
             AddResult true] in
  let rb' := {| m_elements := 10;
                m_ringbuffer := [11; 12; 13; 14; 0; 6; 7; 8; 9; 10];
                m_front := 4; m_back := 5; m_count := 9 |} in
  sound wrapped_twice ∧
  run_log wrapped_twice ops = Some (rs, rb') ∧
  m_count rb' = 10 + (0 + (-1 + (-1 + (1 + 0)))).
Proof.
  intros ops rs rb'.
  assert (sound wrapped_twice) as Hs.
  { unfold sound, bounded, cursors_agree, uint16_modulus; simpl.
    split_and!; (reflexivity || lia). }
  assert (run_log wrapped_twice ops = Some (rs, rb')) as Hrun by reflexivity.
  split; [exact Hs|]. split; [exact Hrun|].
  exact (count_follows_flags ops wrapped_twice rb' rs Hs Hrun).
Defined.

(** X9: for every capacity from 1 to 65535, no sequence of [Add] and
    [Remove] on a constructed buffer ever indexes outside the storage,
    and afterwards both cursors are below the capacity, the count is at
    most the capacity and the storage has capacity slots. *)
Theorem accesses_stay_in_range `{DataType T} (size : Z) (raw : nat → T)
    (ops : list op) (Hsize : 0 < size < uint16_modulus) :
  ∃ rb', run (RingBuffer_ctor size raw) ops = Some rb' ∧ bounded rb' ∧
    m_elements rb' = size.
Proof.
  destruct (bounded_run ops (RingBuffer_ctor size raw)) as (rb' & E & Hb').
  { by apply bounded_ctor. }
  exists rb'. split_and!; [done | done |].
  by destruct (run_keeps_storage ops _ _ E) as [-> _].
Qed.

Lemma accesses_stay_in_range_witness :
  0 < 2 < uint16_modulus ∧
  ∃ rb', run (RingBuffer_ctor 2 (λ _, 9))
             [OpAdd 1; OpAdd 2; OpAdd 3; OpRemove 0; OpRemove 0; OpRemove 0]
         = Some rb' ∧ bounded rb' ∧ m_elements rb' = 2.
Proof.
  assert (0 < 2 < uint16_modulus) as Hsize by (unfold uint16_modulus; lia).
  split; [exact Hsize|].
  exact (accesses_stay_in_range 2 (λ _, 9)
           [OpAdd 1; OpAdd 2; OpAdd 3; OpRemove 0; OpRemove 0; OpRemove 0] Hsize).
Defined.

(** X10: [AdvanceIndex] never produces an index outside the storage,
    whatever index it is given, and applying it [k] times to an index
    inside the storage moves that index [k] slots around the ring; after
    exactly capacity steps the index is where it started. *)
Theorem AdvanceIndex_cycles (elements ix : Z) (k : nat)
    (He : 0 < elements < uint16_modulus) (Hix : 0 ≤ ix < elements) :
  (∀ any, 0 ≤ AdvanceIndex elements any < elements) ∧
  Nat.iter k (AdvanceIndex elements) ix = (ix + Z.of_nat k) mod elements ∧
  Nat.iter (Z.to_nat elements) (AdvanceIndex elements) ix = ix.
Proof.
  assert (∀ n : nat,
    Nat.iter n (AdvanceIndex elements) ix = (ix + Z.of_nat n) mod elements)
    as Hiter.
  { induction n as [|n IH].
    - simpl. rewrite Z.add_0_r. symmetry. apply Z.mod_small. lia.
    - rewrite Nat.iter_succ, IH.
      pose proof (Z.mod_pos_bound (ix + Z.of_nat n) elements).
      rewrite AdvanceIndex_mod by lia.
      rewrite Zplus_mod_idemp_l. f_equal. lia. }
  split_and!.
  - intros any. unfold AdvanceIndex, wrap16, uint16_modulus in *.
    pose proof (Z.mod_pos_bound (any + 1) 65536).
    case_decide; lia.
  - apply Hiter.
  - rewrite Hiter. rewrite Z2Nat.id by lia. reduce_mod; lia.
Qed.

Lemma AdvanceIndex_cycles_witness :
  0 < 10 < uint16_modulus ∧ 0 ≤ 7 < 10 ∧
  Nat.iter 5 (AdvanceIndex 10) 7 = 2 ∧
  Nat.iter (Z.to_nat 10) (AdvanceIndex 10) 7 = 7.
Proof.
  assert (0 < 10 < uint16_modulus) as He by (unfold uint16_modulus; lia).
  assert (0 ≤ 7 < 10) as Hix by lia.
  split; [exact He|]. split; [exact Hix|].
  destruct (AdvanceIndex_cycles 10 7 5 He Hix) as (_ & H5 & H10).
  split; [exact H5 | exact H10].
Defined.

(** X11: on a buffer that is neither empty nor full and whose two
    cursors are at different slots, [Add] and [Remove] do not interfere:
    calling [Add(val)] and then [Remove(outVal)] gives the same two flags,
    the same removed value and the same final state as calling them in
    the other order. *)
Theorem Add_Remove_commute `{DataType T} (rb : RingBuffer T) (val outVal : T)
    (Hb : bounded rb) (Hpart : 0 < m_count rb < m_elements rb)
    (Hcursors : m_front rb ≠ m_back rb) :
  ('(ok1, rb1) ← Add rb val; '(ok2, out, rb2) ← Remove rb1 outVal;
   Some (ok1, ok2, out, rb2))
  = ('(ok2, out, rb1) ← Remove rb outVal; '(ok1, rb2) ← Add rb1 val;
     Some (ok1, ok2, out, rb2)).
Proof.
  pose proof Hb as (He & Hl & Hf & Hbk & Hc).
  assert (Z.to_nat (m_front rb) ≠ Z.to_nat (m_back rb)) as Hne by lia.
  (* Add first *)
  rewrite Add_not_full by (done || lia). cbn [mbind option_bind].
  set (rb1 := {| m_elements := m_elements rb;
                 m_ringbuffer := <[Z.to_nat (m_front rb) := val]> (m_ringbuffer rb);
                 m_front := (m_front rb + 1) mod m_elements rb;
                 m_back := m_back rb;
                 m_count := m_count rb + 1 |}).
  assert (bounded rb1) as Hb1.
  { apply (bounded_Add rb val true); [done|]. apply Add_not_full; [done | lia]. }
  destruct (Remove_nonempty rb1 outVal Hb1) as (v1 & Hv1 & ->); [simpl; lia|].
  simpl in Hv1. rewrite list_lookup_insert_ne in Hv1 by done.
  (* Remove first *)
  destruct (Remove_nonempty rb outVal Hb) as (v & Hv & ->); [lia|].
  assert (v1 = v) as -> by congruence.
  set (rb2 := {| m_elements := m_elements rb;
                 m_ringbuffer :=
                   <[Z.to_nat (m_back rb) := zero_bytes]> (m_ringbuffer rb);
                 m_front := m_front rb;
                 m_back := (m_back rb + 1) mod m_elements rb;
                 m_count := m_count rb - 1 |}).
  assert (bounded rb2) as Hb2.
  { destruct (Remove_nonempty rb outVal Hb) as (v' & _ & E); [lia|].
    by apply (bounded_Remove rb outVal true v'). }
  cbn [mbind option_bind]. rewrite Add_not_full by (done || simpl; lia).
  simpl. do 3 f_equal; [|lia]. by rewrite list_insert_insert_ne by done.
Qed.

Lemma Add_Remove_commute_witness :
  let rb := {| m_elements := 4; m_ringbuffer := [0; 5; 6; 0];
               m_front := 3; m_back := 1; m_count := 2 |} in
  let rb' := {| m_elements := 4; m_ringbuffer := [0; 0; 6; 7];
                m_front := 0; m_back := 2; m_count := 2 |} in
  bounded rb ∧ 0 < m_count rb < m_elements rb ∧ m_front rb ≠ m_back rb ∧
  ('(ok2, out, rb1) ← Remove rb 0; '(ok1, rb2) ← Add rb1 7;
   Some (ok1, ok2, out, rb2)) = Some (true, true, 5, rb').
Proof.
  intros rb rb'.
  assert (bounded rb) as Hb.
  { unfold bounded, uint16_modulus; simpl. lia. }
  assert (0 < m_count rb < m_elements rb) as Hpart by (simpl; lia).
  assert (m_front rb ≠ m_back rb) as Hcursors by (simpl; lia).
  split; [exact Hb|]. split; [exact Hpart|]. split; [exact Hcursors|].
  rewrite <- (Add_Remove_commute rb 7 0 Hb Hpart Hcursors). reflexivity.
Defined.

(** On a buffer of capacity at most 65534 the cursors of a state that is
    neither empty nor full are always at different slots. *)
Lemma partial_cursors_differ `{DataType T} (rb : RingBuffer T) :
  sound rb → 0 < m_count rb < m_elements rb → m_front rb ≠ m_back rb.
Proof.
  intros ((He & Hl & Hf & Hbk & Hc) & Hag & _) Hpart.
  unfold cursors_agree in Hag. rewrite Hag. reduce_mod; lia.
Qed.
